(** * motiondetector.cpp: a frame pipeline with a pattern detector and an
      asynchronous drop-oldest queue.

    Shallow embedding of the pipeline elements of [motiondetector.cpp] and
    proofs about them.  Pixels are [uint8_t] values, kept as [Z]; a
    [vector<vector<uint8_t>>] is a list of rows.  An access outside a vector
    (undefined behaviour in C++) and a loop that never ends have no result:
    the functions that can reach one return [option], with [None] for both. *)

From Stdlib Require Import ZArith Lia.
From stdpp Require Import base option list numbers relations gmap strings pretty sorting.

Open Scope Z_scope.

Abbreviation grid := (list (list Z)).

(** ** VideoFrame *)

Record VideoFrame := mkVideoFrame {
  m_width : Z;
  m_height : Z;
  m_pixels : grid
}.

(** * DetectorElement *)

Module Detector.

(** [std::equal(p.begin(), p.end(), row.begin() + i)]: compares the whole of
    [p] with the cells of [row] from column [i] on; reading past the end of
    [row] is undefined. *)
Definition equal (p row : list Z) (i : nat) : option bool :=
  if decide (i + length p ≤ length row)%nat
  then Some (bool_decide (take (length p) (drop i row) = p))
  else None.

(** The assignment in [markPattern]:
    [m_pixels[k][h] = (m_pixels[k][h] > 0 ? 2 : m_pixels[k][h])]. *)
Definition markPixel (v : Z) : Z := if decide (0 < v) then 2 else v.

(** The counters [k] and [h] of [markPattern] are declared [auto] from the
    [uint8_t] positions, so [k++] and [h++] wrap at 256, while the bounds
    [yPosition + m_patternToDetect.size()] are computed in [size_t].  When a
    bound exceeds 255 the counter never reaches it.  A counter takes at most
    256 values, so 256 rounds of fuel separate the runs that end from those
    that do not. *)
Definition counterFuel : nat := 256.

(** Inner loop of [markPattern], on row [k]:
    [for (auto h = xPosition; h < xPosition + m_patternToDetect[0].size(); h++)]
    with body [m_pixels[k][h] = (m_pixels[k][h] > 0 ? 2 : m_pixels[k][h])]. *)
Fixpoint markRowLoop (fuel : nat) (px : grid) (k h bound : Z) : option grid :=
  match fuel with
  | O => None
  | S fuel' =>
      if decide (h < bound) then
        row ← px !! Z.to_nat k;
        v ← row !! Z.to_nat h;
        markRowLoop fuel' (<[Z.to_nat k := <[Z.to_nat h := markPixel v]> row]> px)
          k ((h + 1) `mod` 256) bound
      else Some px
  end.

(** Outer loop of [markPattern]:
    [for (auto k = yPosition; k < yPosition + m_patternToDetect.size(); k++)].
    [m_patternToDetect[0]] is read in the inner loop's test. *)
Fixpoint markRowsLoop (fuel : nat) (pat px : grid) (xPosition k bound : Z) : option grid :=
  match fuel with
  | O => None
  | S fuel' =>
      if decide (k < bound) then
        p0 ← pat !! 0%nat;
        px' ← markRowLoop counterFuel px k xPosition (xPosition + Z.of_nat (length p0));
        markRowsLoop fuel' pat px' xPosition ((k + 1) `mod` 256) bound
      else Some px
  end.

(** [markPattern(videoFrame, xPosition, yPosition)]; the positions are the
    [uint8_t] parameters, already converted. *)
Definition markPattern (pat px : grid) (xPosition yPosition : Z) : option grid :=
  markRowsLoop counterFuel pat px xPosition yPosition (yPosition + Z.of_nat (length pat)).

(** Conversion of the [int] loop counters to the [uint8_t] parameters of
    [markPattern]. *)
Definition to_uint8 (n : nat) : Z := Z.of_nat n `mod` 256.

(** The loop [for (auto k = 1; k < m_patternToDetect.size(); k++)] with its
    [break]: [rest] holds the rows [m_patternToDetect[k..]]. *)
Fixpoint matchNextRows (pixels : grid) (j i k : nat) (rest : grid) : option bool :=
  match rest with
  | [] => Some true
  | pk :: rest' =>
      row ← pixels !! (j + k)%nat;
      found ← equal pk row i;
      if found : bool then matchNextRows pixels j i (S k) rest' else Some false
  end.

(** What a call has done so far: the pixels of the frame (written by
    [markPattern]) and the positions printed as
    [PATTERN FOUND AT POSITION j : .. i : ..]. *)
Definition scanState : Type := grid * list (nat * nat).

(** Body of the loop on [i] at one position. [pixels] is the copy of the
    frame made on entry, [st.1] the frame itself. *)
Definition scanPosition (pat pixels : grid) (raw : list Z) (j i : nat)
    (st : scanState) : option scanState :=
  p0 ← pat !! 0%nat;
  found ← equal p0 raw i;
  if found : bool then
    found' ← matchNextRows pixels j i 1 (drop 1 pat);
    if found' : bool then
      frame' ← markPattern pat st.1 (to_uint8 i) (to_uint8 j);
      Some (frame', st.2 ++ [(j, i)])
    else Some st
  else Some st.

(** [for (auto i = 0; i < (raw.size() - raw_pattern.size()); i++)], with [n]
    rounds left. *)
Fixpoint scanCols (pat pixels : grid) (raw : list Z) (j i n : nat)
    (st : scanState) : option scanState :=
  match n with
  | O => Some st
  | S n' =>
      st' ← scanPosition pat pixels raw j i st;
      scanCols pat pixels raw j (S i) n' st'
  end.

(** [for (int j = 0; j < (pixels.size() - m_patternToDetect.size()); j++)],
    with [n] rounds left.  [raw.size() - raw_pattern.size()] is unsigned: for
    a row shorter than the pattern's first row it wraps to a huge bound and
    the first [std::equal], at [i = 0], reads past the end of [raw]. *)
Fixpoint scanRows (pat pixels : grid) (j n : nat) (st : scanState) : option scanState :=
  match n with
  | O => Some st
  | S n' =>
      raw ← pixels !! j;
      raw_pattern ← pat !! 0%nat;
      if decide (length raw < length raw_pattern)%nat then None
      else
        st' ← scanCols pat pixels raw j 0 (length raw - length raw_pattern) st;
        scanRows pat pixels (S j) n' st'
  end.

(** [checkPatternAndMarkExistingPatterns]: the new pixels of the frame and
    the positions found.  [||] evaluates its right operand, which reads
    [pixels[0]] and [m_patternToDetect[0]], only when the left one is false. *)
Definition checkPatternAndMarkExistingPatterns (pat frame : grid) : option scanState :=
  let pixels := frame in
  if decide (length pixels < length pat)%nat then Some (frame, [])
  else
    r0 ← pixels !! 0%nat;
    p0 ← pat !! 0%nat;
    if decide (length r0 < length p0)%nat then Some (frame, [])
    else scanRows pat pixels 0 (length pixels - length pat) (frame, []).

(** [DetectorElement::process], on the frame object. *)
Definition process (pat : grid) (f : VideoFrame) : option (VideoFrame * list (nat * nat)) :=
  r ← checkPatternAndMarkExistingPatterns pat (m_pixels f);
  Some (mkVideoFrame (m_width f) (m_height f) r.1, r.2).

(** The pattern of [main]. *)
Definition mainPattern : grid :=
  [ [0; 1; 0]; [1; 1; 1]; [0; 1; 0]; [1; 0; 1] ].

End Detector.

(** * AsynchronousQueue *)

Module Relay.
Section Relay.
(** A queue entry is a [shared_ptr<VideoFrame>]; the queue never looks
    inside the frame. *)
Context {Frame : Type}.

(** Where the thread running [waitForNewVideoFrame] stands. *)
Inductive Worker :=
| NotStarted               (* [m_internalThread{}], no thread yet *)
| AtWait                   (* in [m_queueCv.wait(lock, pred)], lock released *)
| AtDrain                  (* at the test of [while(m_videoFramesQueue.size())], lock held *)
| Popped (f : Frame)       (* front popped, lock released, before [if (!m_runningState)] *)
| Exited.                  (* [waitForNewVideoFrame] has returned *)

Record AsynchronousQueue := mkQueue {
  m_runningState : bool;
  m_startedState : bool;
  m_videoFramesQueue : list Frame;   (* front of the queue first *)
  m_queueMaxSize : Z;                (* a [uint8_t] *)
  worker : Worker;
  forwarded : list Frame             (* frames pushed to [m_nextElements], oldest first *)
}.

(** The constructor. *)
Definition construct (queueMaxSize : Z) : AsynchronousQueue :=
  mkQueue false false [] queueMaxSize NotStarted [].

(** [start()] *)
Definition start (s : AsynchronousQueue) : AsynchronousQueue :=
  if m_startedState s then s
  else mkQueue true true (m_videoFramesQueue s) (m_queueMaxSize s) AtWait (forwarded s).

(** [checkQueueSizeConstraint(maxSize)], on the queue:
    [while (m_videoFramesQueue.size() > maxSize)] pop the front. *)
Fixpoint checkQueueSizeConstraint (maxSize : Z) (q : list Frame) : list Frame :=
  match q with
  | [] => []
  | _ :: q' =>
      if decide (maxSize < Z.of_nat (length q)) then checkQueueSizeConstraint maxSize q'
      else q
  end.

(** [pushNewVideoFrame(newVideoFrame)] *)
Definition pushNewVideoFrame (s : AsynchronousQueue) (f : Frame) : AsynchronousQueue :=
  if decide (0 < m_queueMaxSize s) then
    mkQueue (m_runningState s) (m_startedState s)
      (checkQueueSizeConstraint (m_queueMaxSize s) (m_videoFramesQueue s) ++ [f])
      (m_queueMaxSize s) (worker s) (forwarded s)
  else s.

(** [process(videoFrame)] *)
Definition process (s : AsynchronousQueue) (f : Frame) : AsynchronousQueue :=
  pushNewVideoFrame (start s) f.

(** [processAndPushDownstream(videoFrame)]: the override does nothing. *)
Definition processAndPushDownstream (s : AsynchronousQueue) (f : Frame)
  : AsynchronousQueue := s.

(** The predicate given to [m_queueCv.wait]:
    [return (m_videoFramesQueue.size());]. *)
Definition waitPredicate (s : AsynchronousQueue) : bool :=
  bool_decide (length (m_videoFramesQueue s) ≠ 0%nat).

(** One move of the worker thread in [waitForNewVideoFrame]; [None] when
    it cannot move: no thread, thread ended, or blocked in [wait] because
    the predicate is false. *)
Definition worker_step (s : AsynchronousQueue) : option AsynchronousQueue :=
  match worker s with
  | NotStarted | Exited => None
  | AtWait =>
      if waitPredicate s then
        Some (mkQueue (m_runningState s) (m_startedState s) (m_videoFramesQueue s)
                (m_queueMaxSize s) AtDrain (forwarded s))
      else None
  | AtDrain =>
      match m_videoFramesQueue s with
      | newVideoFrame :: q' =>
          Some (mkQueue (m_runningState s) (m_startedState s) q'
                  (m_queueMaxSize s) (Popped newVideoFrame) (forwarded s))
      | [] =>
          (* inner loop over; [while (m_runningState)] *)
          Some (mkQueue (m_runningState s) (m_startedState s) []
                  (m_queueMaxSize s)
                  (if m_runningState s then AtWait else Exited) (forwarded s))
      end
  | Popped newVideoFrame =>
      if m_runningState s then
        (* the [for_each] over [m_nextElements], then [lock.lock()] *)
        Some (mkQueue (m_runningState s) (m_startedState s) (m_videoFramesQueue s)
                (m_queueMaxSize s) AtDrain (forwarded s ++ [newVideoFrame]))
      else
        (* [break], then [while (m_runningState)] fails *)
        Some (mkQueue (m_runningState s) (m_startedState s) (m_videoFramesQueue s)
                (m_queueMaxSize s) Exited (forwarded s))
  end.

(** The worker, left alone for at most [fuel] moves. *)
Fixpoint run_worker (fuel : nat) (s : AsynchronousQueue) : AsynchronousQueue :=
  match fuel with
  | O => s
  | S fuel' =>
      match worker_step s with
      | Some s' => run_worker fuel' s'
      | None => s
      end
  end.

(** First statement of the destructor: [m_runningState = false]; the
    [notify_all] that follows makes a waiting worker test its predicate
    again, which [worker_step] does at every move. *)
Definition shutdown (s : AsynchronousQueue) : AsynchronousQueue :=
  mkQueue false (m_startedState s) (m_videoFramesQueue s) (m_queueMaxSize s)
    (worker s) (forwarded s).

(** [m_internalThread.join()] returns: there is no thread, or it has ended. *)
Definition joined (s : AsynchronousQueue) : bool :=
  match worker s with NotStarted | Exited => true | _ => false end.

(** End of the destructor, once joined: [checkQueueSizeConstraint(0)]. *)
Definition flush (s : AsynchronousQueue) : AsynchronousQueue :=
  mkQueue (m_runningState s) (m_startedState s)
    (checkQueueSizeConstraint 0 (m_videoFramesQueue s)) (m_queueMaxSize s)
    (worker s) (forwarded s).

(** The relay with its two threads.  With a capacity above 0 the caller of
    [process] needs the mutex, which the worker holds at [AtDrain]. *)
Inductive step : AsynchronousQueue → AsynchronousQueue → Prop :=
| step_process s f :
    (0 < m_queueMaxSize s → worker s ≠ AtDrain) → step s (process s f)
| step_worker s s' : worker_step s = Some s' → step s s'
| step_shutdown s : step s (shutdown s)
| step_flush s : joined s = true → step s (flush s).

(** Calls of [process] one after the other, the worker not moving. *)
Definition process_all (s : AsynchronousQueue) (fs : list Frame) : AsynchronousQueue :=
  foldl process s fs.

End Relay.

Arguments AsynchronousQueue : clear implicits.
Arguments Worker : clear implicits.

End Relay.

(** * VideoSourceElement *)

Module Source.

Record VideoSourceElement := mkSource {
  m_width : Z;
  m_height : Z;
  m_frameRate : Z;          (* a [uint8_t], frames per second *)
  m_runningState : bool
}.

(** The constructor: its member initialisers copy the three arguments; it
    has no body and no way to fail. *)
Definition construct (width height frameRate : Z) : VideoSourceElement :=
  mkSource width height frameRate false.

(** [start()], up to the creation of the thread. *)
Definition start (s : VideoSourceElement) : VideoSourceElement :=
  if m_runningState s then s
  else mkSource (m_width s) (m_height s) (m_frameRate s) true.

(** [stop()] *)
Definition stop (s : VideoSourceElement) : VideoSourceElement :=
  if m_runningState s then mkSource (m_width s) (m_height s) (m_frameRate s) false
  else s.

(** One round of the loop of [RandomVideoFramesGenerator]. *)
Inductive Round :=
| LoopLeft                 (* [m_runningState] is false *)
| Slept (ms : Z)           (* a frame pushed downstream, then [sleep_for(ms)] *)
| DivisionByZero.          (* a frame pushed downstream, then [1000 / 0] *)

(** [1000 / m_frameRate], an [int] division. *)
Definition interFrameDelay (s : VideoSourceElement) : option Z :=
  if decide (m_frameRate s = 0) then None else Some (1000 `div` m_frameRate s).

Definition generatorRound (s : VideoSourceElement) : Round :=
  if m_runningState s then
    match interFrameDelay s with
    | Some ms => Slept ms
    | None => DivisionByZero
    end
  else LoopLeft.

End Source.

(** * BaseElement: linking and pushing downstream *)

Module Pipeline.

(** The concrete classes derived from [BaseElement]. *)
Inductive Kind :=
| KSource
| KDisplay
| KDetector (m_patternToDetect : grid)
| KQueue.

(** An element as the graph sees it; an [Element*] is a key of the store. *)
Record Node := mkNode {
  kind : Kind;
  m_nextElements : list nat
}.

Abbreviation Store := (gmap nat Node).

(** What a push leaves behind, in order. *)
Inductive Event :=
| Process (e : nat)          (* [e->process(videoFrame)] is called *)
| Push (e : nat)             (* [e->processAndPushDownstream(videoFrame)] is called *)
| Pushed (e : nat)           (* that call has returned *)
| Printed (e : nat) (pixels : grid)      (* output of [printVideoFrame] *)
| Found (e : nat) (j i : nat).           (* [PATTERN FOUND AT POSITION] *)

(** The objects the elements act on: the frames behind the shared
    pointers, the state of each asynchronous queue, the events so far. *)
Record World := mkWorld {
  frames : gmap nat grid;
  queues : gmap nat (Relay.AsynchronousQueue nat);
  trace : list Event
}.

Definition emit (ev : list Event) (w : World) : World :=
  mkWorld (frames w) (queues w) (trace w ++ ev).

(** [BaseElement::link]: [m_nextElements.push_back(element); return element;] *)
Definition link (σ : Store) (e element : nat) : Store * nat :=
  (alter (λ n, mkNode (kind n) (m_nextElements n ++ [element])) e σ, element).

(** [DisplayElement::process] *)
Definition displayProcess (e frame : nat) (w : World) : option World :=
  px ← frames w !! frame;
  Some (emit [Printed e px] w).

(** [DetectorElement::process] *)
Definition detectorProcess (pat : grid) (e frame : nat) (w : World) : option World :=
  px ← frames w !! frame;
  r ← Detector.checkPatternAndMarkExistingPatterns pat px;
  Some (mkWorld (<[frame := r.1]> (frames w)) (queues w)
          (trace w ++ map (λ p, Found e p.1 p.2) r.2)).

(** [AsynchronousQueue::process], as the calling thread runs it: the frame
    is handed to the queue.  The worker thread that [start] creates is not
    run here, its moves are those of [Relay.worker_step]; so this module
    follows what the pushing thread itself calls and writes, and says
    nothing of what the elements behind a queue do to a shared frame
    meanwhile. *)
Definition queueProcess (e frame : nat) (w : World) : option World :=
  q ← queues w !! e;
  Some (mkWorld (frames w) (<[e := Relay.process q frame]> (queues w)) (trace w)).

(** The body of [for_each]: one element after the other. *)
Fixpoint forEach (visit : nat → World → option World) (elements : list nat)
    (w : World) : option World :=
  match elements with
  | [] => Some w
  | element :: rest => w' ← visit element w; forEach visit rest w'
  end.

(** The virtual calls [e->process(videoFrame)] and
    [e->processAndPushDownstream(videoFrame)].  The calls nest as deep as
    the graph; [fuel] bounds the depth, and a graph with a cycle exhausts
    any fuel. *)
Fixpoint process (fuel : nat) (σ : Store) (e frame : nat) (w : World)
    {struct fuel} : option World :=
  match fuel with
  | O => None
  | S fuel' =>
      node ← σ !! e;
      let w := emit [Process e] w in
      match kind node with
      | KSource => processAndPushDownstream fuel' σ e frame w
      | KDisplay => displayProcess e frame w
      | KDetector pat => detectorProcess pat e frame w
      | KQueue => queueProcess e frame w
      end
  end
with processAndPushDownstream (fuel : nat) (σ : Store) (e frame : nat) (w : World)
    {struct fuel} : option World :=
  match fuel with
  | O => None
  | S fuel' =>
      node ← σ !! e;
      let w := emit [Push e] w in
      match kind node with
      | KQueue => Some (emit [Pushed e] w)
      | _ =>
          w' ← forEach (λ element w,
                          w1 ← process fuel' σ element frame w;
                          processAndPushDownstream fuel' σ element frame w1)
                 (m_nextElements node) w;
          Some (emit [Pushed e] w')
      end
  end.

(** The pipeline of [main] without the build options: source 0, queue 1,
    detector 2, display 3. *)
Definition mainStore : Store :=
  let σ : Store :=
    {[ 0%nat := mkNode KSource [];
       1%nat := mkNode KQueue [];
       2%nat := mkNode (KDetector Detector.mainPattern) [];
       3%nat := mkNode KDisplay [] ]} in
  let '(σ, asynchQueue) := link σ 0 1 in
  let '(σ, _) := link σ asynchQueue 2 in
  let '(σ, _) := link σ 0 3 in
  σ.

End Pipeline.

(** * GenerateVideoFrame *)

Module Generator.

(** The inner loop of [GenerateVideoFrame]:
    [for (int j = 0; j < m_width; j++) line.push_back(distrib(gen));]
    with [n] rounds left.  [draw k] is the [k]-th value handed out by
    [distrib(gen)] in the call, a value of [uniform_int_distribution<>(0, 1)]. *)
Fixpoint lineLoop (draw : nat → bool) (k n : nat) (line : list Z) : list Z :=
  match n with
  | O => line
  | S n' => lineLoop draw (S k) n' (line ++ [Z.b2z (draw k)])
  end.

(** The outer loop:
    [for (int i = 0; i < m_height; i++) { ...; m_pixels.push_back(line); }]. *)
Fixpoint rowsLoop (draw : nat → bool) (width : nat) (k n : nat) (pixels : grid) : grid :=
  match n with
  | O => pixels
  | S n' => rowsLoop draw width (k + width) n' (pixels ++ [lineLoop draw k width []])
  end.

(** [GenerateVideoFrame()]: [make_shared<VideoFrame>(m_width, m_height, m_pixels)]. *)
Definition GenerateVideoFrame (s : Source.VideoSourceElement) (draw : nat → bool)
    : VideoFrame :=
  mkVideoFrame (Source.m_width s) (Source.m_height s)
    (rowsLoop draw (Z.to_nat (Source.m_width s)) 0 (Z.to_nat (Source.m_height s)) []).

End Generator.

(** * DisplayElement *)

Module Display.

(** The end of line written by [cout << "\n"]. *)
Definition newline : string := String (Ascii.ascii_of_nat 10) EmptyString.

(** [cout << ((pixel == 2) ? "$ " : ((pixel == 1) ? "+ " : ". "))] *)
Definition printPixel (pixel : Z) : string :=
  if decide (pixel = 2) then "$ " else if decide (pixel = 1) then "+ " else ". ".

(** The inner [for_each] over a row, then [cout << "\n"]. *)
Definition printRow (raw : list Z) : string :=
  foldr (λ pixel out, printPixel pixel +:+ out) newline raw.

(** The outer [for_each] over [m_pixels]. *)
Definition printPixels (pixels : grid) : string :=
  foldr (λ raw out, printRow raw +:+ out) EmptyString pixels.

(** [printVideoFrame(videoFrame)]: everything it writes to [cout]. *)
Definition printVideoFrame (f : VideoFrame) : string :=
  newline +:+ " New Frame Width : " +:+ pretty (Z.to_N (m_width f))
    +:+ " Height : " +:+ pretty (Z.to_N (m_height f)) +:+ newline
    +:+ printPixels (m_pixels f) +:+ newline.

(** [DisplayElement::process] *)
Definition process (f : VideoFrame) : string := printVideoFrame f.

End Display.

(** * Properties of the detector *)

Module DetectorFacts.
Import Detector.

(** ** Closed forms of the marking loops *)

Lemma counterFuel_eq : counterFuel = 256%nat.
Proof. reflexivity. Qed.

#[local] Opaque counterFuel.

(** The row after the inner loop has run over the columns [x .. x+w-1]. *)
Definition markRowSpec (row : list Z) (x w : nat) : list Z :=
  imap (λ c v, if decide (x ≤ c < x + w)%nat then markPixel v else v) row.

(** The grid after [markPattern] has run over the footprint with top-left
    corner (row [y], column [x]), [h] rows and [w] columns. *)
Definition markGridSpec (px : grid) (x y w h : nat) : grid :=
  imap (λ r row, if decide (y ≤ r < y + h)%nat then markRowSpec row x w else row) px.

(** The inner loop of [markPattern] seen from the row it works on. *)
Fixpoint markCellsLoop (fuel : nat) (row : list Z) (h bound : Z) : option (list Z) :=
  match fuel with
  | O => None
  | S fuel' =>
      if decide (h < bound) then
        v ← row !! Z.to_nat h;
        markCellsLoop fuel' (<[Z.to_nat h := markPixel v]> row) ((h + 1) `mod` 256) bound
      else Some row
  end.

(** The inner loop ends without leaving [row]. *)
Definition cellsOk (row : list Z) (x w : nat) : Prop :=
  (x + w ≤ 255 ∧ (w = 0 ∨ x + w ≤ length row))%nat.

(** The inner loop ends without leaving row [r] of the grid; a pattern of
    width 0 never touches the grid. *)
Definition rowOk (px : grid) (x r w : nat) : Prop :=
  (x + w ≤ 255)%nat ∧
  (w = 0%nat ∨ ∃ row, px !! r = Some row ∧ (x + w ≤ length row)%nat).

(** The two loops end without leaving the grid. *)
Definition gridOk (px : grid) (x y w h : nat) : Prop :=
  (y + h ≤ 255)%nat ∧ ∀ r, (y ≤ r < y + h)%nat → rowOk px x r w.

Lemma markPixel_idemp v : markPixel (markPixel v) = markPixel v.
Proof. unfold markPixel. repeat case_decide; lia. Qed.

Lemma markRowSpec_lookup row x w c :
  markRowSpec row x w !! c =
  (λ v, if decide (x ≤ c < x + w)%nat then markPixel v else v) <$> row !! c.
Proof. unfold markRowSpec. by rewrite list_lookup_imap. Qed.

Lemma markRowSpec_length row x w : length (markRowSpec row x w) = length row.
Proof. unfold markRowSpec. by rewrite length_imap. Qed.

Lemma markRowSpec_0 row x : markRowSpec row x 0 = row.
Proof.
  apply list_eq; intros c. rewrite markRowSpec_lookup.
  destruct (row !! c); simpl; [|done]. case_decide; [lia|done].
Qed.

Lemma markRowSpec_step row x w v :
  row !! x = Some v →
  markRowSpec (<[x := markPixel v]> row) (S x) w = markRowSpec row x (S w).
Proof.
  intros Hx. apply list_eq; intros c. rewrite !markRowSpec_lookup.
  destruct (decide (c = x)) as [->|Hne].
  - rewrite list_lookup_insert_eq by (by eapply lookup_lt_Some).
    rewrite Hx. simpl. repeat case_decide; try lia; done.
  - rewrite list_lookup_insert_ne by done.
    destruct (row !! c); simpl; [|done]. repeat case_decide; try lia; done.
Qed.

Lemma markCellsLoop_diverges fuel row h bound :
  0 ≤ h ≤ 255 → 256 ≤ bound → markCellsLoop fuel row h bound = None.
Proof.
  revert row h. induction fuel as [|fuel IH]; intros row h Hh Hb; simpl; [done|].
  rewrite decide_True by lia.
  destruct (row !! Z.to_nat h); simpl; [|done].
  apply IH; [|done]. pose proof (Z.mod_pos_bound (h + 1) 256). lia.
Qed.

Lemma markCellsLoop_ok w : ∀ fuel row (x : nat),
  (w < fuel)%nat → cellsOk row x w →
  markCellsLoop fuel row (Z.of_nat x) (Z.of_nat x + Z.of_nat w) = Some (markRowSpec row x w).
Proof.
  induction w as [|w IH]; intros fuel row x Hf [H255 Hlen];
    (destruct fuel as [|fuel]; [lia|]); simpl.
  - rewrite decide_False by lia. by rewrite markRowSpec_0.
  - rewrite decide_True by lia. rewrite Nat2Z.id.
    destruct (row !! x) as [v|] eqn:Hx.
    2:{ apply lookup_ge_None in Hx. lia. }
    simpl. rewrite Z.mod_small by lia.
    replace (Z.of_nat x + 1) with (Z.of_nat (S x)) by lia.
    replace (Z.of_nat x + Z.of_nat (S w)) with (Z.of_nat (S x) + Z.of_nat w) by lia.
    rewrite IH; [by rewrite markRowSpec_step| lia |].
    split; [lia|]. rewrite length_insert. lia.
Qed.

Lemma markCellsLoop_inv w : ∀ fuel row (x : nat) row',
  (x ≤ 255)%nat →
  markCellsLoop fuel row (Z.of_nat x) (Z.of_nat x + Z.of_nat w) = Some row' →
  cellsOk row x w.
Proof.
  induction w as [|w IH]; intros fuel row x row' Hx255 Hrun.
  - split; lia.
  - destruct fuel as [|fuel]; [done|]. simpl in Hrun.
    rewrite decide_True in Hrun by lia. rewrite Nat2Z.id in Hrun.
    destruct (row !! x) as [v|] eqn:Hx; [|done]. simpl in Hrun.
    apply lookup_lt_Some in Hx.
    destruct (decide (x = 255)%nat) as [Heq|Hne].
    { rewrite markCellsLoop_diverges in Hrun; [done| |lia].
      pose proof (Z.mod_pos_bound (Z.of_nat x + 1) 256). lia. }
    rewrite Z.mod_small in Hrun by lia.
    replace (Z.of_nat x + 1) with (Z.of_nat (S x)) in Hrun by lia.
    replace (Z.of_nat x + Z.of_nat (S w)) with (Z.of_nat (S x) + Z.of_nat w) in Hrun by lia.
    apply IH in Hrun; [|lia]. destruct Hrun as [H1 H2].
    rewrite length_insert in H2. split; lia.
Qed.

(** The inner loop on one row, started at a [uint8_t] column. *)
Lemma markCellsLoop_spec row (x w : nat) row' :
  (x ≤ 255)%nat →
  markCellsLoop counterFuel row (Z.of_nat x) (Z.of_nat x + Z.of_nat w) = Some row' ↔
  cellsOk row x w ∧ row' = markRowSpec row x w.
Proof.
  intros Hx. split.
  - intros Hrun. pose proof (markCellsLoop_inv _ _ _ _ _ Hx Hrun) as Hok.
    split; [done|]. rewrite markCellsLoop_ok in Hrun; [congruence| |done].
    destruct Hok. rewrite counterFuel_eq. lia.
  - intros [Hok ->]. apply markCellsLoop_ok; [|done].
    destruct Hok. rewrite counterFuel_eq. lia.
Qed.

Lemma markGridSpec_lookup px x y w h r :
  markGridSpec px x y w h !! r =
  (λ row, if decide (y ≤ r < y + h)%nat then markRowSpec row x w else row) <$> px !! r.
Proof. unfold markGridSpec. by rewrite list_lookup_imap. Qed.

Lemma markGridSpec_length px x y w h : length (markGridSpec px x y w h) = length px.
Proof. unfold markGridSpec. by rewrite length_imap. Qed.

Lemma markGridSpec_0 px x y w : markGridSpec px x y w 0 = px.
Proof.
  apply list_eq; intros r. rewrite markGridSpec_lookup.
  destruct (px !! r); simpl; [|done]. case_decide; [lia|done].
Qed.

Lemma markGridSpec_lookup_out px x y w h r :
  ¬ (y ≤ r < y + h)%nat → markGridSpec px x y w h !! r = px !! r.
Proof.
  intros Hr. rewrite markGridSpec_lookup.
  destruct (px !! r); simpl; [|done]. by rewrite decide_False.
Qed.

Lemma markGridSpec_one px x k w row :
  px !! k = Some row → markGridSpec px x k w 1 = <[k := markRowSpec row x w]> px.
Proof.
  intros Hrow. apply list_eq; intros r.
  destruct (decide (r = k)) as [->|Hne].
  - rewrite list_lookup_insert_eq by (by eapply lookup_lt_Some).
    rewrite markGridSpec_lookup, Hrow. simpl. by rewrite decide_True by lia.
  - rewrite list_lookup_insert_ne by done.
    apply markGridSpec_lookup_out. lia.
Qed.

Lemma markGridSpec_no_cells px x y h : markGridSpec px x y 0 h = px.
Proof.
  apply list_eq; intros r. rewrite markGridSpec_lookup.
  destruct (px !! r); simpl; [|done]. case_decide; [|done]. by rewrite markRowSpec_0.
Qed.

Lemma markGridSpec_step px x y w h :
  markGridSpec (markGridSpec px x y w 1) x (S y) w h = markGridSpec px x y w (S h).
Proof.
  apply list_eq; intros r. rewrite !markGridSpec_lookup.
  destruct (px !! r); simpl; [|done]. f_equal.
  repeat case_decide; try lia; done.
Qed.

Lemma markRowLoop_row fuel : ∀ px (k : nat) row h bound,
  px !! k = Some row →
  markRowLoop fuel px (Z.of_nat k) h bound =
  row' ← markCellsLoop fuel row h bound; Some (<[k := row']> px).
Proof.
  induction fuel as [|fuel IH]; intros px k row h bound Hrow; simpl; [done|].
  rewrite Nat2Z.id. case_decide.
  - rewrite Hrow. simpl. destruct (row !! Z.to_nat h) as [v|]; simpl; [|done].
    rewrite (IH _ _ (<[Z.to_nat h := markPixel v]> row)).
    2:{ apply list_lookup_insert_eq. by eapply lookup_lt_Some. }
    destruct (markCellsLoop _ _ _ _); simpl; [|done].
    by rewrite list_insert_insert_eq.
  - simpl. by rewrite list_insert_id.
Qed.

Lemma markRowLoop_no_row fuel px (k : nat) h bound :
  px !! k = None →
  markRowLoop (S fuel) px (Z.of_nat k) h bound =
  if decide (h < bound) then None else Some px.
Proof. intros Hrow. simpl. rewrite Nat2Z.id, Hrow. by case_decide. Qed.

(** The inner loop on row [k] of the grid, started at a [uint8_t] column. *)
Lemma markRowLoop_spec px (k x w : nat) px' :
  (x ≤ 255)%nat →
  markRowLoop counterFuel px (Z.of_nat k) (Z.of_nat x) (Z.of_nat x + Z.of_nat w) = Some px' ↔
  rowOk px x k w ∧ px' = markGridSpec px x k w 1.
Proof.
  intros Hx. destruct (px !! k) as [row|] eqn:Hrow.
  - rewrite (markRowLoop_row _ _ _ row) by done.
    rewrite (markGridSpec_one _ _ _ _ row) by done. split.
    + intros Hrun.
      destruct (markCellsLoop _ _ _ _) as [row'|] eqn:Hc; [|done].
      simpl in Hrun. injection Hrun as <-.
      apply markCellsLoop_spec in Hc as [[H1 H2] ->]; [|done].
      split; [|done]. split; [done|].
      destruct H2; [by left|]. right. by exists row.
    + intros [[H1 H2] ->].
      assert (Hc : markCellsLoop counterFuel row (Z.of_nat x) (Z.of_nat x + Z.of_nat w)
                   = Some (markRowSpec row x w)).
      { apply markCellsLoop_spec; [done|]. split; [|done]. split; [done|].
        destruct H2 as [?|(row0 & Hrow0 & ?)]; [by left|]. right. congruence. }
      by rewrite Hc.
  - rewrite counterFuel_eq, markRowLoop_no_row by done.
    unfold rowOk. rewrite Hrow. case_decide.
    + split; [done|]. intros [[_ [?|(? & ? & _)]] _]; [lia|done].
    + assert (w = 0%nat) as -> by lia. rewrite markGridSpec_no_cells. split.
      * intros [= <-]. split; [|done]. split; [lia|by left].
      * by intros [_ ->].
Qed.

Lemma markRowsLoop_diverges fuel pat px x k bound :
  0 ≤ k ≤ 255 → 256 ≤ bound → markRowsLoop fuel pat px x k bound = None.
Proof.
  revert px k. induction fuel as [|fuel IH]; intros px k Hk Hb; simpl; [done|].
  rewrite decide_True by lia.
  destruct (pat !! 0%nat); simpl; [|done].
  destruct (markRowLoop _ _ _ _ _); simpl; [|done].
  apply IH; [|done]. pose proof (Z.mod_pos_bound (k + 1) 256). lia.
Qed.

Lemma markRowsLoop_done fuel pat px x k bound :
  bound ≤ k → markRowsLoop (S fuel) pat px x k bound = Some px.
Proof. intros. simpl. by rewrite decide_False by lia. Qed.

Lemma rowOk_after px x y w r x' w' h' :
  rowOk (markGridSpec px x' y w' h') x r w ↔ rowOk px x r w.
Proof.
  unfold rowOk. rewrite markGridSpec_lookup. split.
  - intros [? [?|(row & Hrow & ?)]]; (split; [done|]); [by left|]. right.
    destruct (px !! r) as [row0|]; simpl in Hrow; [|done]. injection Hrow as <-.
    exists row0. split; [done|]. case_decide; [|done].
    by rewrite markRowSpec_length in *.
  - intros [? [?|(row & Hrow & ?)]]; (split; [done|]); [by left|]. right.
    rewrite Hrow. simpl. eexists. split; [done|].
    case_decide; [|done]. by rewrite markRowSpec_length.
Qed.

Section MarkRows.
Variables (pat : grid) (p0 : list Z) (x : nat).
Hypothesis Hp0 : pat !! 0%nat = Some p0.
Hypothesis Hx : (x ≤ 255)%nat.

Lemma markRowsLoop_ok h : ∀ fuel px (y : nat),
  (h < fuel)%nat → gridOk px x y (length p0) h →
  markRowsLoop fuel pat px (Z.of_nat x) (Z.of_nat y) (Z.of_nat y + Z.of_nat h)
  = Some (markGridSpec px x y (length p0) h).
Proof using Hp0 Hx.
  induction h as [|h IH]; intros fuel px y Hf [H255 Hrows];
    (destruct fuel as [|fuel]; [lia|]); simpl.
  - rewrite decide_False by lia. by rewrite markGridSpec_0.
  - rewrite decide_True by lia. rewrite Hp0. simpl.
    rewrite (proj2 (markRowLoop_spec px y x (length p0) _ Hx)
               (conj (Hrows y ltac:(lia)) eq_refl)).
    simpl. rewrite Z.mod_small by lia.
    replace (Z.of_nat y + 1) with (Z.of_nat (S y)) by lia.
    replace (Z.of_nat y + Z.of_nat (S h)) with (Z.of_nat (S y) + Z.of_nat h) by lia.
    rewrite IH; [by rewrite markGridSpec_step| lia |].
    split; [lia|]. intros r Hr. apply rowOk_after, Hrows. lia.
Qed.

Lemma markRowsLoop_inv h : ∀ fuel px (y : nat) px',
  (y ≤ 255)%nat →
  markRowsLoop fuel pat px (Z.of_nat x) (Z.of_nat y) (Z.of_nat y + Z.of_nat h) = Some px' →
  gridOk px x y (length p0) h.
Proof using Hp0 Hx.
  induction h as [|h IH]; intros fuel px y px' Hy Hrun.
  - split; [lia|]. intros r ?. lia.
  - destruct fuel as [|fuel]; [done|]. simpl in Hrun.
    rewrite decide_True in Hrun by lia.
    rewrite Hp0 in Hrun. simpl in Hrun.
    destruct (markRowLoop _ _ _ _ _) as [px1|] eqn:Hinner; [|done]. simpl in Hrun.
    apply markRowLoop_spec in Hinner as [Hok ->]; [|done].
    destruct (decide (y = 255)%nat) as [Heq|Hne].
    { rewrite markRowsLoop_diverges in Hrun; [done| |lia].
      pose proof (Z.mod_pos_bound (Z.of_nat y + 1) 256). lia. }
    rewrite Z.mod_small in Hrun by lia.
    replace (Z.of_nat y + 1) with (Z.of_nat (S y)) in Hrun by lia.
    replace (Z.of_nat y + Z.of_nat (S h)) with (Z.of_nat (S y) + Z.of_nat h) in Hrun by lia.
    apply IH in Hrun; [|lia]. destruct Hrun as [H1 H2].
    split; [lia|]. intros r Hr.
    destruct (decide (r = y)) as [->|Hry]; [done|].
    eapply rowOk_after, H2. lia.
Qed.
End MarkRows.

(** Width of a pattern or of a frame as the code reads it: the size of the
    first row, [m_patternToDetect[0].size()] and [pixels[0].size()]. *)
Definition firstRowSize (pat : grid) : nat := length (default [] (pat !! 0%nat)).

(** [markPattern] at [uint8_t] positions: it returns exactly when the
    footprint stays below 256 and inside the grid, and then marks the
    footprint. *)
Lemma markPattern_spec pat px (x y : nat) px' :
  (x ≤ 255)%nat → (y ≤ 255)%nat →
  markPattern pat px (Z.of_nat x) (Z.of_nat y) = Some px' ↔
  gridOk px x y (firstRowSize pat) (length pat) ∧
  px' = markGridSpec px x y (firstRowSize pat) (length pat).
Proof.
  intros Hx Hy. unfold markPattern, firstRowSize.
  destruct pat as [|p0 rest].
  - rewrite counterFuel_eq. rewrite markRowsLoop_done by (simpl; lia).
    simpl length. rewrite markGridSpec_0. split.
    + intros [= <-]. split; [|done]. split; [lia|]. intros r ?. lia.
    + by intros [_ ->].
  - assert (Hp0 : (p0 :: rest) !! 0%nat = Some p0) by done.
    rewrite Hp0. simpl default. split.
    + intros Hrun.
      pose proof (markRowsLoop_inv _ _ _ Hp0 Hx _ _ _ _ _ Hy Hrun) as Hok.
      split; [done|]. rewrite (markRowsLoop_ok _ _ _ Hp0 Hx) in Hrun; [congruence| |done].
      destruct Hok. rewrite counterFuel_eq. lia.
    + intros [Hok ->]. apply (markRowsLoop_ok _ _ _ Hp0 Hx); [|done].
      destruct Hok. rewrite counterFuel_eq. lia.
Qed.

(** ** The scan reads the copy, the marking writes the frame *)

(** The row-equality tests of one position: they read [pixels] and [raw],
    both taken from the copy made on entry, never the frame being marked. *)
Definition matchAt (pat pixels : grid) (raw : list Z) (j i : nat) : option bool :=
  p0 ← pat !! 0%nat;
  found ← equal p0 raw i;
  if found : bool then matchNextRows pixels j i 1 (drop 1 pat) else Some false.

(** Positions found on row [j], columns [i .. i+n-1]. *)
Fixpoint colMatches (pat pixels : grid) (raw : list Z) (j i n : nat)
    : option (list (nat * nat)) :=
  match n with
  | O => Some []
  | S n' =>
      b ← matchAt pat pixels raw j i;
      rest ← colMatches pat pixels raw j (S i) n';
      Some (if b : bool then (j, i) :: rest else rest)
  end.

(** Positions found on rows [j .. j+n-1]. *)
Fixpoint rowMatches (pat pixels : grid) (j n : nat) : option (list (nat * nat)) :=
  match n with
  | O => Some []
  | S n' =>
      raw ← pixels !! j;
      raw_pattern ← pat !! 0%nat;
      if decide (length raw < length raw_pattern)%nat then None
      else
        ms ← colMatches pat pixels raw j 0 (length raw - length raw_pattern);
        rest ← rowMatches pat pixels (S j) n';
        Some (ms ++ rest)
  end.

(** The calls of [markPattern], one per position found, in order. *)
Fixpoint marks (pat g : grid) (ms : list (nat * nat)) {struct ms} : option grid :=
  match ms with
  | [] => Some g
  | (j, i) :: ms' =>
      g' ← markPattern pat g (to_uint8 i) (to_uint8 j);
      marks pat g' ms'
  end.

Lemma marks_app pat g ms1 ms2 :
  marks pat g (ms1 ++ ms2) = g' ← marks pat g ms1; marks pat g' ms2.
Proof.
  revert g. induction ms1 as [|[j i] ms1 IH]; intros g; simpl; [done|].
  destruct (markPattern _ _ _ _); simpl; [apply IH|done].
Qed.

Lemma scanPosition_factor pat pixels raw j i st :
  scanPosition pat pixels raw j i st =
  b ← matchAt pat pixels raw j i;
  if b : bool then
    g' ← markPattern pat st.1 (to_uint8 i) (to_uint8 j); Some (g', st.2 ++ [(j, i)])
  else Some st.
Proof.
  unfold scanPosition, matchAt.
  destruct (pat !! 0%nat); simpl; [|done].
  destruct (equal _ _ _) as [[]|]; simpl; done.
Qed.

Lemma scanCols_factor pat pixels raw j n : ∀ i g log,
  scanCols pat pixels raw j i n (g, log) =
  ms ← colMatches pat pixels raw j i n; g' ← marks pat g ms; Some (g', log ++ ms).
Proof.
  induction n as [|n IH]; intros i g log; simpl.
  - by rewrite app_nil_r.
  - rewrite scanPosition_factor.
    destruct (matchAt _ _ _ _ _) as [[]|]; simpl; [| |done].
    + destruct (markPattern _ _ _ _) as [g1|] eqn:Hmark; simpl.
      * rewrite IH. destruct (colMatches _ _ _ _ _ _); simpl; [|done].
        rewrite Hmark. simpl. by rewrite <- app_assoc.
      * destruct (colMatches _ _ _ _ _ _); simpl; [|done]. by rewrite Hmark.
    + rewrite IH. by destruct (colMatches _ _ _ _ _ _).
Qed.

Lemma scanRows_factor pat pixels n : ∀ j g log,
  scanRows pat pixels j n (g, log) =
  ms ← rowMatches pat pixels j n; g' ← marks pat g ms; Some (g', log ++ ms).
Proof.
  induction n as [|n IH]; intros j g log; simpl.
  - by rewrite app_nil_r.
  - destruct (pixels !! j) as [raw|]; simpl; [|done].
    destruct (pat !! 0%nat) as [p0|]; simpl; [|done].
    case_decide; [done|].
    rewrite scanCols_factor.
    destruct (colMatches _ _ _ _ _ _) as [ms|]; simpl; [|done].
    destruct (marks pat g ms) as [g1|] eqn:Hm; simpl.
    + rewrite IH. destruct (rowMatches _ _ _ _) as [rest|]; simpl; [|done].
      rewrite marks_app, Hm. simpl. by rewrite <- app_assoc.
    + destruct (rowMatches _ _ _ _) as [rest|]; simpl; [|done].
      by rewrite marks_app, Hm.
Qed.

(** The positions found by a whole call, computed from the entry grid. *)
Definition allMatches (pat pixels : grid) : option (list (nat * nat)) :=
  rowMatches pat pixels 0 (length pixels - length pat).

(** The early return of [checkPatternAndMarkExistingPatterns]. *)
Definition tooSmall (pat pixels : grid) : option bool :=
  if decide (length pixels < length pat)%nat then Some true
  else r0 ← pixels !! 0%nat; p0 ← pat !! 0%nat;
       Some (bool_decide (length r0 < length p0)%nat).

(** A call is: decide on the entry grid which positions match, then mark
    them one after the other. *)
Lemma check_factor pat px :
  checkPatternAndMarkExistingPatterns pat px =
  small ← tooSmall pat px;
  if small : bool then Some (px, [])
  else ms ← allMatches pat px; g' ← marks pat px ms; Some (g', ms).
Proof.
  unfold checkPatternAndMarkExistingPatterns, tooSmall, allMatches.
  case_decide; simpl; [done|].
  destruct (px !! 0%nat) as [r0|]; simpl; [|done].
  destruct (pat !! 0%nat) as [p0|]; simpl; [|done].
  case_bool_decide; case_decide; try lia; [done|].
  by rewrite scanRows_factor.
Qed.

(** ** Which positions are found *)

(** The grid [pixels] carries the whole pattern with its top-left corner at
    row [j], column [i]. *)
Definition regionEq (pat pixels : grid) (j i : nat) : Prop :=
  ∀ k pk, pat !! k = Some pk →
    ∃ row, pixels !! (j + k)%nat = Some row ∧ take (length pk) (drop i row) = pk.

(** Position [(j, i)] is visited by the two scanning loops. *)
Definition inScan (pat pixels : grid) (j i : nat) : Prop :=
  (j < length pixels - length pat)%nat ∧
  ∃ raw, pixels !! j = Some raw ∧ (i < length raw - firstRowSize pat)%nat.

Lemma equal_Some p row i b :
  equal p row i = Some b → (b = true ↔ take (length p) (drop i row) = p).
Proof.
  unfold equal. case_decide; [|done]. intros [= <-].
  rewrite bool_decide_eq_true. done.
Qed.

Lemma matchNextRows_true pixels j i rest : ∀ k,
  matchNextRows pixels j i k rest = Some true →
  ∀ k' pk, rest !! k' = Some pk →
    ∃ row, pixels !! (j + (k + k'))%nat = Some row ∧ take (length pk) (drop i row) = pk.
Proof.
  induction rest as [|p rest IH]; intros k Hrun k' pk Hk'; [done|].
  simpl in Hrun.
  destruct (pixels !! (j + k)%nat) as [row|] eqn:Hrow; [|done]. simpl in Hrun.
  destruct (equal p row i) as [[]|] eqn:Heq; simpl in Hrun; [|done|done].
  destruct k' as [|k'].
  - injection Hk' as <-. exists row. rewrite Nat.add_0_r. split; [done|].
    by apply (equal_Some _ _ _ _ Heq).
  - replace (k + S k')%nat with (S k + k')%nat by lia. by eapply IH.
Qed.

Lemma matchNextRows_false pixels j i rest : ∀ k,
  matchNextRows pixels j i k rest = Some false →
  ∃ k' pk row, rest !! k' = Some pk ∧ pixels !! (j + (k + k'))%nat = Some row ∧
               take (length pk) (drop i row) ≠ pk.
Proof.
  induction rest as [|p rest IH]; intros k Hrun; [done|].
  simpl in Hrun.
  destruct (pixels !! (j + k)%nat) as [row|] eqn:Hrow; [|done]. simpl in Hrun.
  destruct (equal p row i) as [[]|] eqn:Heq; simpl in Hrun; [| |done].
  - destruct (IH _ Hrun) as (k' & pk & row' & H1 & H2 & H3).
    exists (S k'), pk, row'. split; [done|].
    replace (k + S k')%nat with (S k + k')%nat by lia. done.
  - exists 0%nat, p, row. rewrite Nat.add_0_r. split_and!; [done..|].
    intros Htake. apply (equal_Some _ _ _ _ Heq) in Htake. done.
Qed.

Lemma matchAt_true pat pixels raw j i :
  pixels !! j = Some raw →
  matchAt pat pixels raw j i = Some true → regionEq pat pixels j i.
Proof.
  intros Hraw Hrun. unfold matchAt in Hrun.
  destruct pat as [|p0 rest]; [done|]. simpl in Hrun.
  destruct (equal p0 raw i) as [[]|] eqn:Heq; simpl in Hrun; [|done|done].
  rewrite drop_0 in Hrun.
  intros [|k] pk Hk.
  - injection Hk as <-. exists raw. rewrite Nat.add_0_r. split; [done|].
    by apply (equal_Some _ _ _ _ Heq).
  - simpl in Hk. replace (j + S k)%nat with (j + (1 + k))%nat by lia.
    by eapply matchNextRows_true.
Qed.

Lemma matchAt_false pat pixels raw j i :
  pixels !! j = Some raw →
  matchAt pat pixels raw j i = Some false → ¬ regionEq pat pixels j i.
Proof.
  intros Hraw Hrun Hreg. unfold matchAt in Hrun.
  destruct pat as [|p0 rest]; [done|]. simpl in Hrun.
  destruct (equal p0 raw i) as [[]|] eqn:Heq; simpl in Hrun; [| |done].
  - rewrite drop_0 in Hrun.
    destruct (matchNextRows_false _ _ _ _ _ Hrun) as (k' & pk & row & H1 & H2 & H3).
    destruct (Hreg (S k') pk) as (row' & Hrow' & Htake); [done|].
    replace (j + S k')%nat with (j + (1 + k'))%nat in Hrow' by lia. congruence.
  - destruct (Hreg 0%nat p0) as (row' & Hrow' & Htake); [done|].
    rewrite Nat.add_0_r in Hrow'. assert (row' = raw) as -> by congruence.
    apply (equal_Some _ _ _ _ Heq) in Htake. done.
Qed.

Lemma colMatches_elem pat pixels raw j n : ∀ i ms,
  pixels !! j = Some raw →
  colMatches pat pixels raw j i n = Some ms →
  ∀ j' i', (j', i') ∈ ms ↔ j' = j ∧ (i ≤ i' < i + n)%nat ∧ regionEq pat pixels j i'.
Proof.
  induction n as [|n IH]; intros i ms Hraw Hrun j' i'; simpl in Hrun.
  - injection Hrun as <-. rewrite elem_of_nil. split; [done|]. lia.
  - destruct (matchAt _ _ _ _ _) as [b|] eqn:Hm; [|done]. simpl in Hrun.
    destruct (colMatches _ _ _ _ _ _) as [rest|] eqn:Hrest; [|done]. simpl in Hrun.
    injection Hrun as <-. specialize (IH _ _ Hraw Hrest j' i').
    destruct b.
    + apply matchAt_true in Hm; [|done]. rewrite elem_of_cons, IH. split.
      * intros [[= -> ->]|(-> & ? & ?)]; (split_and!; (done || lia)).
      * intros (-> & Hi & Hreg). destruct (decide (i' = i)) as [->|]; [by left|].
        right. split_and!; (done || lia).
    + apply matchAt_false in Hm; [|done]. rewrite IH. split.
      * intros (-> & ? & ?). split_and!; (done || lia).
      * intros (-> & Hi & Hreg). destruct (decide (i' = i)) as [->|]; [done|].
        split_and!; (done || lia).
Qed.

Lemma rowMatches_elem pat pixels n : ∀ j ms,
  rowMatches pat pixels j n = Some ms →
  ∀ j' i', (j', i') ∈ ms ↔
    (j ≤ j' < j + n)%nat ∧
    (∃ raw, pixels !! j' = Some raw ∧ (i' < length raw - firstRowSize pat)%nat) ∧
    regionEq pat pixels j' i'.
Proof.
  induction n as [|n IH]; intros j ms Hrun j' i'; simpl in Hrun.
  - injection Hrun as <-. rewrite elem_of_nil. split; [done|]. lia.
  - destruct (pixels !! j) as [raw|] eqn:Hraw; [|done]. simpl in Hrun.
    destruct (pat !! 0%nat) as [p0|] eqn:Hp0; [|done]. simpl in Hrun.
    case_decide; [done|].
    destruct (colMatches _ _ _ _ _ _) as [ms0|] eqn:Hcols; [|done]. simpl in Hrun.
    destruct (rowMatches _ _ _ _) as [rest|] eqn:Hrest; [|done]. simpl in Hrun.
    injection Hrun as <-.
    rewrite elem_of_app, (colMatches_elem _ _ _ _ _ _ _ Hraw Hcols), (IH _ _ Hrest).
    assert (Hw : firstRowSize pat = length p0) by (unfold firstRowSize; by rewrite Hp0).
    split.
    + intros [(-> & Hi & Hreg)|(Hj & Hex & Hreg)].
      * split_and!; [lia|lia| |done]. exists raw. split; [done|]. lia.
      * split_and!; [lia|lia|done|done].
    + intros (Hj & (raw' & Hraw' & Hi) & Hreg).
      destruct (decide (j' = j)) as [->|].
      * left. assert (raw' = raw) as -> by congruence. split_and!; (done || lia).
      * right. split_and!; [lia|lia| |done]. by exists raw'.
Qed.

(** ** What marking does to a grid *)

(** A cell after some calls of [markPattern]: as it was, or marked. *)
Definition markedCell (va vb : Z) : Prop := vb = va ∨ vb = markPixel va.

(** [b] is [a] with some cells marked; in particular the two grids have
    the same number of rows and the same row sizes. *)
Definition marked (a b : grid) : Prop := Forall2 (Forall2 markedCell) a b.

(** Marking the footprint changes nothing. *)
Definition settled (g : grid) (x y w h : nat) : Prop := markGridSpec g x y w h = g.

Lemma to_uint8_nat n : to_uint8 n = Z.of_nat (n `mod` 256).
Proof. unfold to_uint8. by rewrite Nat2Z.inj_mod. Qed.

Lemma mod_256_le n : (n `mod` 256 ≤ 255)%nat.
Proof. pose proof (Nat.mod_upper_bound n 256). lia. Qed.

Lemma markedCell_refl v : markedCell v v.
Proof. by left. Qed.

Lemma markedCell_trans va vb vc : markedCell va vb → markedCell vb vc → markedCell va vc.
Proof.
  unfold markedCell. intros [->| ->] [->| ->]; auto.
  right. apply markPixel_idemp.
Qed.

Lemma marked_refl g : marked g g.
Proof.
  apply Forall2_same_length_lookup. split; [done|]. intros r row row' H1 H2.
  assert (row' = row) as -> by congruence.
  apply Forall2_same_length_lookup. split; [done|]. intros c v v' H3 H4.
  assert (v' = v) as -> by congruence. apply markedCell_refl.
Qed.

Lemma marked_trans a b c : marked a b → marked b c → marked a c.
Proof.
  unfold marked. intros Hab Hbc.
  eapply Forall2_trans; [|done..].
  intros ra rb rc H1 H2. eapply Forall2_trans; [|done..].
  intros ???. apply markedCell_trans.
Qed.

Lemma markRowSpec_marked row x w : Forall2 markedCell row (markRowSpec row x w).
Proof.
  apply Forall2_same_length_lookup. split; [by rewrite markRowSpec_length|].
  intros c v v' H1 H2. rewrite markRowSpec_lookup, H1 in H2. simpl in H2.
  injection H2 as <-. case_decide; [by right|by left].
Qed.

Lemma markGridSpec_marked g x y w h : marked g (markGridSpec g x y w h).
Proof.
  apply Forall2_same_length_lookup. split; [by rewrite markGridSpec_length|].
  intros r row row' H1 H2. rewrite markGridSpec_lookup, H1 in H2. simpl in H2.
  injection H2 as <-. case_decide; [apply markRowSpec_marked|].
  apply Forall2_same_length_lookup. split; [done|]. intros c v v' H3 H4.
  assert (v' = v) as -> by congruence. apply markedCell_refl.
Qed.

Lemma cells_length row row' : Forall2 markedCell row row' → length row = length row'.
Proof. apply Forall2_length. Qed.

Lemma marked_length a b : marked a b → length a = length b.
Proof. apply Forall2_length. Qed.

Lemma marked_lookup a b r row :
  marked a b → a !! r = Some row →
  ∃ row', b !! r = Some row' ∧ Forall2 markedCell row row'.
Proof. intros Hm Hr. by eapply Forall2_lookup_l. Qed.

Lemma marked_lookup_r a b r row' :
  marked a b → b !! r = Some row' →
  ∃ row, a !! r = Some row ∧ Forall2 markedCell row row'.
Proof. intros Hm Hr. by eapply Forall2_lookup_r. Qed.

Lemma gridOk_marked a b x y w h : marked a b → gridOk a x y w h → gridOk b x y w h.
Proof.
  intros Hm [H255 Hrows]. split; [done|]. intros r Hr.
  destruct (Hrows r Hr) as [Hx [?|(row & Hrow & Hlen)]]; (split; [done|]); [by left|].
  destruct (marked_lookup _ _ _ _ Hm Hrow) as (row' & Hrow' & Hcells).
  right. exists row'. split; [done|]. by rewrite <- (cells_length _ _ Hcells).
Qed.

Lemma settled_cell g x y w h r row c v :
  settled g x y w h → (y ≤ r < y + h)%nat → (x ≤ c < x + w)%nat →
  g !! r = Some row → row !! c = Some v → markPixel v = v.
Proof.
  intros Hs Hr Hc Hrow Hv. unfold settled in Hs.
  assert (H1 : markGridSpec g x y w h !! r = Some row) by (by rewrite Hs).
  rewrite markGridSpec_lookup, Hrow in H1. simpl in H1.
  rewrite decide_True in H1 by done. injection H1 as H1.
  assert (H2 : markRowSpec row x w !! c = Some v) by (by rewrite H1).
  rewrite markRowSpec_lookup, Hv in H2. simpl in H2.
  rewrite decide_True in H2 by done. congruence.
Qed.

Lemma settled_intro g x y w h :
  (∀ r row c v, (y ≤ r < y + h)%nat → (x ≤ c < x + w)%nat →
     g !! r = Some row → row !! c = Some v → markPixel v = v) →
  settled g x y w h.
Proof.
  intros Hcells. apply list_eq; intros r. rewrite markGridSpec_lookup.
  destruct (g !! r) as [row|] eqn:Hrow; simpl; [|done]. f_equal.
  case_decide; [|done]. apply list_eq; intros c. rewrite markRowSpec_lookup.
  destruct (row !! c) as [v|] eqn:Hv; simpl; [|done]. f_equal.
  case_decide; [|done]. by eapply Hcells.
Qed.

Lemma settled_after g x y w h : settled (markGridSpec g x y w h) x y w h.
Proof.
  apply settled_intro. intros r row c v Hr Hc Hrow Hv.
  rewrite markGridSpec_lookup in Hrow.
  destruct (g !! r) as [row0|]; simpl in Hrow; [|done].
  rewrite decide_True in Hrow by done. injection Hrow as <-.
  rewrite markRowSpec_lookup in Hv.
  destruct (row0 !! c) as [v0|]; simpl in Hv; [|done].
  rewrite decide_True in Hv by done. injection Hv as <-. apply markPixel_idemp.
Qed.

Lemma settled_marked a b x y w h : marked a b → settled a x y w h → settled b x y w h.
Proof.
  intros Hm Hs. apply settled_intro. intros r row' c v' Hr Hc Hrow' Hv'.
  destruct (marked_lookup_r _ _ _ _ Hm Hrow') as (row & Hrow & Hcells).
  destruct (Forall2_lookup_r _ _ _ _ _ Hcells Hv') as (v & Hv & Hcell).
  pose proof (settled_cell _ _ _ _ _ _ _ _ _ Hs Hr Hc Hrow Hv) as Hst.
  destruct Hcell as [->| ->]; [done|]. by rewrite markPixel_idemp.
Qed.

(** After the calls of [markPattern] for the positions [ms], the grid is
    the entry grid with some cells marked, and marking any of the positions
    again changes nothing. *)
Lemma marks_settled pat ms : ∀ g g',
  marks pat g ms = Some g' →
  marked g g' ∧
  ∀ j i, (j, i) ∈ ms → markPattern pat g' (to_uint8 i) (to_uint8 j) = Some g'.
Proof.
  induction ms as [|[j0 i0] ms IH]; intros g g' Hrun; simpl in Hrun.
  - injection Hrun as <-. split; [apply marked_refl|]. intros j i Hin.
    by apply elem_of_nil in Hin.
  - destruct (markPattern _ _ _ _) as [g1|] eqn:Hmark; [|done]. simpl in Hrun.
    destruct (IH _ _ Hrun) as [Hm Hgood].
    rewrite !to_uint8_nat in Hmark.
    apply markPattern_spec in Hmark as [Hok ->]; [|apply mod_256_le..].
    split; [eapply marked_trans; [apply markGridSpec_marked|done]|].
    intros j i [[= -> ->]|Hin]%elem_of_cons; [|by apply Hgood].
    rewrite !to_uint8_nat. apply markPattern_spec; [apply mod_256_le..|].
    split.
    + eapply gridOk_marked; [|done].
      eapply marked_trans; [apply markGridSpec_marked|done].
    + symmetry. eapply settled_marked; [done|]. apply settled_after.
Qed.

Lemma marks_fixed pat g ms :
  (∀ j i, (j, i) ∈ ms → markPattern pat g (to_uint8 i) (to_uint8 j) = Some g) →
  marks pat g ms = Some g.
Proof.
  induction ms as [|[j0 i0] ms IH]; intros Hgood; simpl; [done|].
  rewrite Hgood by (by left). simpl. apply IH. intros j i Hin.
  apply Hgood. by right.
Qed.

(** ** A second call on the marked frame *)

(** No cell of the pattern has the value written by [markPattern]. *)
Definition noMarkValue (pat : grid) : Prop := Forall (Forall (λ v, v ≠ 2)) pat.

Lemma markedCell_unmarked l p :
  Forall2 markedCell l p → Forall (λ v, v ≠ 2) p → l = p.
Proof.
  induction 1 as [|va vb l p Hcell _ IH]; intros Hp; [done|].
  apply Forall_cons_1 in Hp as [Hvb Hp]. f_equal; [|by apply IH].
  destruct Hcell as [->| ->]; [done|].
  unfold markPixel in *. case_decide; [done|done].
Qed.

Lemma equal_marked p row row1 i b :
  Forall2 markedCell row row1 → Forall (λ v, v ≠ 2) p →
  equal p row i = Some b →
  ∃ b1, equal p row1 i = Some b1 ∧ (b1 = true → b = true).
Proof.
  intros Hcells Hp Heq. pose proof (cells_length _ _ Hcells) as Hlen.
  pose proof Heq as Hdef. unfold equal in Hdef |- *. rewrite <- Hlen.
  case_decide; [|done]. eexists. split; [done|].
  rewrite bool_decide_eq_true. intros Htake.
  apply (equal_Some _ _ _ _ Heq).
  apply markedCell_unmarked; [|done]. rewrite <- Htake at 2.
  by apply Forall2_take, Forall2_drop.
Qed.

Lemma matchNextRows_marked px px1 j i rest : ∀ k b,
  marked px px1 → noMarkValue rest →
  matchNextRows px j i k rest = Some b →
  ∃ b1, matchNextRows px1 j i k rest = Some b1 ∧ (b1 = true → b = true).
Proof.
  induction rest as [|p rest IH]; intros k b Hm Hno Hrun; simpl in *.
  - exists true. split; [done|]. by injection Hrun as <-.
  - apply Forall_cons_1 in Hno as [Hp Hno].
    destruct (px !! (j + k)%nat) as [row|] eqn:Hrow; [|done]. simpl in Hrun.
    destruct (marked_lookup _ _ _ _ Hm Hrow) as (row1 & -> & Hcells). simpl.
    destruct (equal p row i) as [b0|] eqn:Heq; [|done]. simpl in Hrun.
    destruct (equal_marked _ _ _ _ _ Hcells Hp Heq) as (b1 & -> & Himp). simpl.
    destruct b1.
    + rewrite Himp in Hrun by done. by apply IH.
    + exists false. by split.
Qed.

Lemma matchAt_marked pat px px1 raw raw1 j i b :
  marked px px1 → Forall2 markedCell raw raw1 → noMarkValue pat →
  matchAt pat px raw j i = Some b →
  ∃ b1, matchAt pat px1 raw1 j i = Some b1 ∧ (b1 = true → b = true).
Proof.
  intros Hm Hcells Hno Hrun. unfold matchAt in *.
  destruct pat as [|p0 rest]; [done|]. simpl in *.
  apply Forall_cons_1 in Hno as [Hp Hno].
  destruct (equal p0 raw i) as [b0|] eqn:Heq; [|done]. simpl in Hrun.
  destruct (equal_marked _ _ _ _ _ Hcells Hp Heq) as (b1 & -> & Himp). simpl.
  destruct b1.
  - rewrite Himp in Hrun by done. rewrite drop_0 in *.
    by eapply matchNextRows_marked.
  - exists false. by split.
Qed.

Lemma colMatches_marked pat px px1 raw raw1 j n : ∀ i ms,
  marked px px1 → Forall2 markedCell raw raw1 → noMarkValue pat →
  colMatches pat px raw j i n = Some ms →
  is_Some (colMatches pat px1 raw1 j i n).
Proof.
  induction n as [|n IH]; intros i ms Hm Hcells Hno Hrun; simpl in *; [done|].
  destruct (matchAt pat px raw j i) as [b|] eqn:Hb; [|done]. simpl in Hrun.
  destruct (matchAt_marked _ _ _ _ _ _ _ _ Hm Hcells Hno Hb) as (b1 & -> & _). simpl.
  destruct (colMatches pat px raw j (S i) n) as [rest|] eqn:Hrest; [|done].
  destruct (IH _ _ Hm Hcells Hno Hrest) as [rest1 ->]. done.
Qed.

Lemma rowMatches_marked pat px px1 n : ∀ j ms,
  marked px px1 → noMarkValue pat →
  rowMatches pat px j n = Some ms →
  is_Some (rowMatches pat px1 j n).
Proof.
  induction n as [|n IH]; intros j ms Hm Hno Hrun; simpl in *; [done|].
  destruct (px !! j) as [raw|] eqn:Hraw; [|done]. simpl in Hrun.
  destruct (marked_lookup _ _ _ _ Hm Hraw) as (raw1 & -> & Hcells). simpl.
  destruct (pat !! 0%nat) as [p0|]; [|done]. simpl in *.
  rewrite <- (cells_length _ _ Hcells).
  case_decide; [done|].
  destruct (colMatches pat px raw j 0 _) as [ms0|] eqn:Hcols; [|done]. simpl in Hrun.
  destruct (colMatches_marked _ _ _ _ _ _ _ _ _ Hm Hcells Hno Hcols) as [ms1 ->]. simpl.
  destruct (rowMatches pat px (S j) n) as [rest|] eqn:Hrest; [|done].
  destruct (IH _ _ Hm Hno Hrest) as [rest1 ->]. done.
Qed.

Lemma regionEq_marked pat px px1 j i :
  marked px px1 → noMarkValue pat → regionEq pat px1 j i → regionEq pat px j i.
Proof.
  intros Hm Hno Hreg k pk Hk.
  destruct (Hreg k pk Hk) as (row1 & Hrow1 & Htake).
  destruct (marked_lookup_r _ _ _ _ Hm Hrow1) as (row & Hrow & Hcells).
  exists row. split; [done|].
  apply markedCell_unmarked.
  - rewrite <- Htake at 2. by apply Forall2_take, Forall2_drop.
  - unfold noMarkValue in Hno. rewrite Forall_lookup in Hno. by eapply Hno.
Qed.

Lemma tooSmall_marked pat px px1 : marked px px1 → tooSmall pat px1 = tooSmall pat px.
Proof.
  intros Hm. unfold tooSmall. rewrite <- (marked_length _ _ Hm).
  case_decide; [done|].
  destruct (px !! 0%nat) as [r0|] eqn:Hr0.
  - destruct (marked_lookup _ _ _ _ Hm Hr0) as (r1 & -> & Hcells). simpl.
    by rewrite <- (cells_length _ _ Hcells).
  - apply lookup_ge_None in Hr0. rewrite (marked_length _ _ Hm) in Hr0.
    apply lookup_ge_None in Hr0. by rewrite Hr0.
Qed.

(** A pattern free of the value 2: a call on the frame left by a first call
    returns that frame. *)
Lemma check_again pat px px1 log1 :
  noMarkValue pat →
  checkPatternAndMarkExistingPatterns pat px = Some (px1, log1) →
  ∃ log2, checkPatternAndMarkExistingPatterns pat px1 = Some (px1, log2).
Proof.
  intros Hno Hrun. rewrite check_factor in Hrun. rewrite check_factor.
  destruct (tooSmall pat px) as [small|] eqn:Hsmall; [|done]. simpl in Hrun.
  destruct small.
  { injection Hrun as <- <-. rewrite Hsmall. simpl. by eexists. }
  destruct (allMatches pat px) as [ms|] eqn:Hms; [|done]. simpl in Hrun.
  destruct (marks pat px ms) as [g|] eqn:Hmarks; [|done]. simpl in Hrun.
  injection Hrun as -> <-.
  destruct (marks_settled _ _ _ _ Hmarks) as [Hm Hgood].
  rewrite (tooSmall_marked _ _ _ Hm), Hsmall. simpl.
  unfold allMatches in *.
  pose proof (marked_length _ _ Hm) as Hlen.
  destruct (rowMatches_marked pat px px1 (length px - length pat) 0 ms Hm Hno Hms)
    as [ms1 Hms1].
  rewrite <- Hlen, Hms1. simpl.
  rewrite marks_fixed; [by eexists|].
  intros j i Hin. apply Hgood.
  apply (rowMatches_elem _ _ _ _ _ Hms1) in Hin as (Hj & (raw1 & Hraw1 & Hi) & Hreg).
  apply (rowMatches_elem _ _ _ _ _ Hms). split; [done|split].
  - destruct (marked_lookup_r _ _ _ _ Hm Hraw1) as (raw & Hraw & Hcells).
    exists raw. split; [done|]. by rewrite (cells_length _ _ Hcells).
  - by eapply regionEq_marked.
Qed.

(** ** Calls that return *)

(** Every row of [g] has [w] cells. *)
Definition rectangular (g : grid) (w : nat) : Prop := Forall (λ row, length row = w) g.

Lemma rectangular_lookup g w r row : rectangular g w → g !! r = Some row → length row = w.
Proof. intros Hrect Hrow. unfold rectangular in Hrect. rewrite Forall_lookup in Hrect. eauto. Qed.

Lemma rectangular_firstRowSize pat w : pat ≠ [] → rectangular pat w → firstRowSize pat = w.
Proof.
  intros Hne Hrect. destruct pat as [|p0 rest]; [done|].
  unfold firstRowSize. simpl. by apply Forall_cons_1 in Hrect as [? _].
Qed.

Lemma first_row (pat : grid) : pat ≠ [] → ∃ p0, pat !! 0%nat = Some p0.
Proof. destruct pat as [|p0 rest]; [done|]. by exists p0. Qed.

Section Total.
Variables (pat px : grid) (w W : nat).
Hypothesis Hpat : rectangular pat w.
Hypothesis Hpx : rectangular px W.

Lemma equal_total p row i :
  length p = w → length row = W → (i + w ≤ W)%nat → is_Some (equal p row i).
Proof. intros Hp Hrow Hi. unfold equal. rewrite decide_True by lia. done. Qed.

Lemma matchNextRows_total j i rest : ∀ k,
  rectangular rest w → (j + k + length rest ≤ length px)%nat → (i + w ≤ W)%nat →
  is_Some (matchNextRows px j i k rest).
Proof using Hpx.
  induction rest as [|p rest IH]; intros k Hrest Hk Hi; simpl in *; [done|].
  apply Forall_cons_1 in Hrest as [Hp Hrest].
  destruct (lookup_lt_is_Some_2 px (j + k)) as [row Hrow]; [lia|].
  rewrite Hrow. simpl.
  destruct (equal_total p row i) as [b Hb];
    [done|by eapply rectangular_lookup|done|].
  rewrite Hb. simpl. destruct b; [|done]. apply IH; [done|lia|done].
Qed.

Lemma matchAt_total raw j i :
  px !! j = Some raw → (j + length pat ≤ length px)%nat → (i + w ≤ W)%nat →
  pat ≠ [] → is_Some (matchAt pat px raw j i).
Proof using Hpat Hpx.
  intros Hraw Hj Hi Hne. unfold matchAt.
  destruct pat as [|p0 rest] eqn:Epat; [done|]. simpl.
  apply Forall_cons_1 in Hpat as [Hp0 Hrest].
  destruct (equal_total p0 raw i) as [b Hb];
    [done|by eapply rectangular_lookup|done|].
  rewrite Hb. simpl. destruct b; [|done]. rewrite drop_0.
  apply matchNextRows_total; [done|simpl in Hj; lia|done].
Qed.

Lemma colMatches_total raw j n : ∀ i,
  px !! j = Some raw → (j + length pat ≤ length px)%nat → (i + n + w ≤ W)%nat →
  pat ≠ [] → is_Some (colMatches pat px raw j i n).
Proof using Hpat Hpx.
  induction n as [|n IH]; intros i Hraw Hj Hi Hne; simpl; [done|].
  destruct (matchAt_total raw j i) as [b ->]; [done|done|lia|done|]. simpl.
  destruct (IH (S i)) as [rest ->]; [done|done|lia|done|]. done.
Qed.

Lemma rowMatches_total n : ∀ j,
  (j + n + length pat ≤ length px)%nat → (w ≤ W)%nat → pat ≠ [] →
  is_Some (rowMatches pat px j n).
Proof using Hpat Hpx.
  induction n as [|n IH]; intros j Hj Hw Hne; simpl; [done|].
  destruct (lookup_lt_is_Some_2 px j) as [raw Hraw]; [lia|].
  rewrite Hraw. simpl.
  destruct (first_row pat Hne) as [p0 Hp0].
  rewrite Hp0. simpl.
  rewrite (rectangular_lookup _ _ _ _ Hpx Hraw), (rectangular_lookup _ _ _ _ Hpat Hp0).
  rewrite decide_False by lia.
  destruct (colMatches_total raw j (W - w) 0) as [ms ->]; [done|lia|lia|done|]. simpl.
  destruct (IH (S j)) as [rest' ->]; [lia|done|done|]. done.
Qed.

Lemma marks_total ms : ∀ g,
  marked px g → (length px ≤ 255)%nat → (W ≤ 255)%nat → pat ≠ [] →
  (∀ j i, (j, i) ∈ ms → (j + length pat < length px)%nat ∧ (i + w < W)%nat) →
  is_Some (marks pat g ms).
Proof using Hpat Hpx.
  induction ms as [|[j0 i0] ms IH]; intros g Hm HH HW Hne Hin; simpl; [done|].
  destruct (Hin j0 i0) as [Hj Hi]; [by left|].
  rewrite !to_uint8_nat, !Nat.mod_small by lia.
  assert (Hok : gridOk g i0 j0 (firstRowSize pat) (length pat)).
  { rewrite (rectangular_firstRowSize _ _ Hne Hpat).
    eapply gridOk_marked; [done|]. split; [lia|]. intros r Hr.
    destruct (lookup_lt_is_Some_2 px r) as [row Hrow]; [lia|].
    split; [lia|]. right. exists row. split; [done|].
    rewrite (rectangular_lookup _ _ _ _ Hpx Hrow). lia. }
  rewrite (proj2 (markPattern_spec pat g i0 j0 _ ltac:(lia) ltac:(lia)) (conj Hok eq_refl)).
  simpl. apply IH; [|done..|].
  - eapply marked_trans; [done|apply markGridSpec_marked].
  - intros j i Hji. apply Hin. by right.
Qed.
End Total.

(** On a rectangular frame whose sizes fit [uint8_t] (as [m_width] and
    [m_height] require) and a rectangular, non-empty pattern, the call
    returns: no access leaves a vector and every loop ends. *)
Lemma check_total pat px w W :
  pat ≠ [] → rectangular pat w → rectangular px W →
  (length px ≤ 255)%nat → (W ≤ 255)%nat →
  is_Some (checkPatternAndMarkExistingPatterns pat px).
Proof.
  intros Hne Hpat Hpx HH HW. rewrite check_factor.
  unfold tooSmall. case_decide; [done|].
  destruct (first_row pat Hne) as [p0 Hp0].
  assert (Hlen : (1 ≤ length pat)%nat) by (apply lookup_lt_Some in Hp0; lia).
  destruct (lookup_lt_is_Some_2 px 0) as [r0 Hr0]; [lia|].
  rewrite Hr0, Hp0. simpl.
  rewrite (rectangular_lookup _ _ _ _ Hpx Hr0), (rectangular_lookup _ _ _ _ Hpat Hp0).
  case_bool_decide; [done|].
  unfold allMatches.
  destruct (rowMatches_total pat px w W Hpat Hpx (length px - length pat) 0)
    as [ms Hms]; [lia|lia|done|].
  rewrite Hms. simpl.
  destruct (marks_total pat px w W Hpat Hpx ms px) as [g ->];
    [apply marked_refl|done..| |done].
  intros j i Hin.
  apply (rowMatches_elem _ _ _ _ _ Hms) in Hin as (Hj & (raw & Hraw & Hi) & _).
  rewrite (rectangular_firstRowSize _ _ Hne Hpat) in Hi.
  rewrite (rectangular_lookup _ _ _ _ Hpx Hraw) in Hi. lia.
Qed.

(** ** Properties of [DetectorElement] *)

(** The positions found are visited by the loops: the pattern's last row
    stays above the last row of the frame, its last column left of the last
    column of the row. *)
Lemma found_in_scan pat px px' log j i :
  checkPatternAndMarkExistingPatterns pat px = Some (px', log) →
  (j, i) ∈ log →
  (j + length pat < length px)%nat ∧
  ∃ raw, px !! j = Some raw ∧ (i + firstRowSize pat < length raw)%nat.
Proof.
  intros Hrun Hin. rewrite check_factor in Hrun.
  destruct (tooSmall pat px) as [[]|]; simpl in Hrun; [|  |done].
  { injection Hrun as <- <-. by apply elem_of_nil in Hin. }
  destruct (allMatches pat px) as [ms|] eqn:Hms; [|done]. simpl in Hrun.
  destruct (marks pat px ms) as [g|]; [|done]. injection Hrun as <- <-.
  apply (rowMatches_elem _ _ _ _ _ Hms) in Hin as (Hj & (raw & Hraw & Hi) & _).
  split; [lia|]. exists raw. split; [done|lia].
Qed.

(** C4, on the code: a frame that is exactly the pattern of [main] carries
    the pattern at row 0, column 0, where it fits (it ends on the last row
    and the last column), and the call finds nothing and marks nothing. *)
Theorem pattern_on_last_row_and_column_missed :
  regionEq mainPattern mainPattern 0 0 ∧
  checkPatternAndMarkExistingPatterns mainPattern mainPattern = Some (mainPattern, []).
Proof.
  split; [|by vm_compute].
  intros k pk Hk. exists pk. split; [done|].
  by rewrite drop_0, firstn_all.
Qed.

(** C5, as stated, fails: with the pattern [1 1] and the row [1 1 1 0], the
    match at column 0 marks the cells of columns 0 and 1; the frame row then
    reads [2 2 1 0], which differs from the pattern at column 1, and yet the
    call finds the position (0, 1) too and marks column 2. *)
Lemma later_match_ignores_marks :
  markPattern [[1; 1]] [[1; 1; 1; 0]; [0; 0; 0; 0]] 0 0
    = Some [[2; 2; 1; 0]; [0; 0; 0; 0]] ∧
  equal [1; 1] [2; 2; 1; 0] 1 = Some false ∧
  checkPatternAndMarkExistingPatterns [[1; 1]] [[1; 1; 1; 0]; [0; 0; 0; 0]]
    = Some ([[2; 2; 2; 0]; [0; 0; 0; 0]], [(0, 0); (0, 1)]%nat).
Proof. split_and!; by vm_compute. Qed.

(** C5, amended: every row-equality test of a call reads the copy of the
    pixels made on entry.  A position is found exactly when the loops visit
    it and the entry grid carries the pattern there, whatever earlier matches
    have marked in the frame. *)
Theorem found_iff_entry_grid_matches pat px px' log j i :
  checkPatternAndMarkExistingPatterns pat px = Some (px', log) →
  (j, i) ∈ log ↔
  tooSmall pat px = Some false ∧ inScan pat px j i ∧ regionEq pat px j i.
Proof.
  intros Hrun. rewrite check_factor in Hrun.
  destruct (tooSmall pat px) as [[]|]; simpl in Hrun; [| |done].
  { injection Hrun as <- <-. rewrite elem_of_nil. split; [done|]. by intros [? _]. }
  destruct (allMatches pat px) as [ms|] eqn:Hms; [|done]. simpl in Hrun.
  destruct (marks pat px ms) as [g|]; [|done]. injection Hrun as <- <-.
  rewrite (rowMatches_elem _ _ _ _ _ Hms). unfold inScan. split.
  - intros (Hj & Hex & Hreg). split_and!; (done || lia).
  - intros (_ & (Hj & Hex) & Hreg). split_and!; (done || lia).
Qed.

Lemma found_iff_entry_grid_matches_witness :
  (0, 1)%nat ∈ [(0, 0); (0, 1)]%nat ↔
  tooSmall [[1; 1]] [[1; 1; 1; 0]; [0; 0; 0; 0]] = Some false ∧
  inScan [[1; 1]] [[1; 1; 1; 0]; [0; 0; 0; 0]] 0 1 ∧
  regionEq [[1; 1]] [[1; 1; 1; 0]; [0; 0; 0; 0]] 0 1.
Proof.
  apply (found_iff_entry_grid_matches _ _ [[2; 2; 2; 0]; [0; 0; 0; 0]]).
  vm_compute. reflexivity.
Defined.

(** C6: a frame with fewer rows than the pattern, or with a first row
    shorter than the pattern's first row, comes back from [process] as it
    was, with no position found. *)
Theorem small_frame_unchanged pat f :
  (length (m_pixels f) < length pat)%nat ∨
  (firstRowSize (m_pixels f) < firstRowSize pat)%nat →
  process pat f = Some (f, []).
Proof.
  intros Hsmall. destruct f as [fw fh px]. unfold process. simpl in *.
  unfold checkPatternAndMarkExistingPatterns.
  case_decide; [done|]. destruct Hsmall as [?|Hw]; [lia|].
  unfold firstRowSize in Hw.
  destruct (pat !! 0%nat) as [p0|] eqn:Hp0; simpl in Hw; [|lia].
  destruct (px !! 0%nat) as [r0|] eqn:Hr0; simpl in *.
  - by rewrite decide_True by done.
  - apply lookup_ge_None in Hr0. apply lookup_lt_Some in Hp0. lia.
Qed.

Lemma small_frame_unchanged_witness :
  process mainPattern (mkVideoFrame 2 3 [[0; 1]; [1; 1]; [0; 1]])
  = Some (mkVideoFrame 2 3 [[0; 1]; [1; 1]; [0; 1]], []).
Proof. apply small_frame_unchanged. left. simpl. lia. Defined.

(** C7, as stated, fails: with the pattern [1 2] and the row [1 1 2 0], the
    first call finds (0, 1) and leaves [1 2 2 0]; the second call finds
    (0, 0) in that row and leaves [2 2 2 0]. *)
Lemma second_call_changes_frame :
  process [[1; 2]] (mkVideoFrame 4 2 [[1; 1; 2; 0]; [0; 0; 0; 0]])
    = Some (mkVideoFrame 4 2 [[1; 2; 2; 0]; [0; 0; 0; 0]], [(0, 1)]%nat) ∧
  process [[1; 2]] (mkVideoFrame 4 2 [[1; 2; 2; 0]; [0; 0; 0; 0]])
    = Some (mkVideoFrame 4 2 [[2; 2; 2; 0]; [0; 0; 0; 0]], [(0, 0)]%nat).
Proof. split; by vm_compute. Qed.

(** C7, amended: for a pattern none of whose cells is 2, and every frame, a
    second [process] on the frame left by the first returns it cell for cell. *)
Theorem process_twice pat f f1 log1 :
  noMarkValue pat →
  process pat f = Some (f1, log1) →
  ∃ log2, process pat f1 = Some (f1, log2).
Proof.
  intros Hno Hrun. unfold process in *.
  destruct (checkPatternAndMarkExistingPatterns pat (m_pixels f)) as [[px1 l1]|] eqn:Hc;
    [|done].
  simpl in Hrun. injection Hrun as <- <-. simpl.
  destruct (check_again _ _ _ _ Hno Hc) as [log2 ->]. simpl. by exists log2.
Qed.

Lemma process_twice_witness :
  ∃ log2,
    process [[1; 1]] (mkVideoFrame 4 2 [[2; 2; 2; 0]; [0; 0; 0; 0]])
    = Some (mkVideoFrame 4 2 [[2; 2; 2; 0]; [0; 0; 0; 0]], log2).
Proof.
  apply (process_twice [[1; 1]] (mkVideoFrame 4 2 [[1; 1; 1; 0]; [0; 0; 0; 0]])
           _ [(0, 0); (0, 1)]%nat).
  - repeat constructor; lia.
  - vm_compute. reflexivity.
Defined.

(** [process] returns on every frame that keeps the invariant of
    [VideoFrame] with a rectangular, non-empty pattern. *)
Lemma process_total pat f w :
  pat ≠ [] → rectangular pat w →
  rectangular (m_pixels f) (Z.to_nat (m_width f)) →
  length (m_pixels f) = Z.to_nat (m_height f) →
  m_width f ≤ 255 → m_height f ≤ 255 →
  is_Some (process pat f).
Proof.
  intros Hne Hpat Hpx Hh Hw255 Hh255. unfold process.
  destruct (check_total pat (m_pixels f) w (Z.to_nat (m_width f))) as [r ->];
    [done|done|done|lia|lia|]. done.
Qed.

End DetectorFacts.

(** * Properties of the asynchronous queue *)

Module RelayFacts.
Import Relay.
Section RelayFacts.
Context {Frame : Type}.
Implicit Types (s : AsynchronousQueue Frame) (q fs : list Frame) (f : Frame).

(** [checkQueueSizeConstraint] keeps the [maxSize] newest entries. *)
Lemma checkQueueSizeConstraint_drop maxSize q :
  0 ≤ maxSize →
  checkQueueSizeConstraint maxSize q = drop (length q - Z.to_nat maxSize) q.
Proof.
  intros Hmax. induction q as [|f q IH]; [done|].
  cbn [checkQueueSizeConstraint]. case_decide as Hlen.
  - rewrite IH. simpl length in *.
    replace (S (length q) - Z.to_nat maxSize)%nat
      with (S (length q - Z.to_nat maxSize)) by lia.
    done.
  - simpl length in *.
    replace (S (length q) - Z.to_nat maxSize)%nat with 0%nat by lia. done.
Qed.

Lemma checkQueueSizeConstraint_length maxSize q :
  0 ≤ maxSize →
  length (checkQueueSizeConstraint maxSize q) = (length q `min` Z.to_nat maxSize)%nat.
Proof.
  intros Hmax. rewrite checkQueueSizeConstraint_drop by done.
  rewrite length_drop. lia.
Qed.

Lemma process_fields s f :
  m_queueMaxSize (process s f) = m_queueMaxSize s ∧
  m_runningState (process s f) = (m_runningState s || negb (m_startedState s)) ∧
  m_startedState (process s f) = true ∧
  forwarded (process s f) = forwarded s ∧
  worker (process s f) = (if m_startedState s then worker s else AtWait).
Proof.
  unfold process, pushNewVideoFrame, start.
  destruct s as [r [] q m w fw]; simpl; case_decide; simpl;
    split_and!; try done; by destruct r.
Qed.

Lemma process_queue s f :
  m_videoFramesQueue (process s f) =
  if decide (0 < m_queueMaxSize s)
  then checkQueueSizeConstraint (m_queueMaxSize s) (m_videoFramesQueue s) ++ [f]
  else m_videoFramesQueue s.
Proof.
  unfold process, pushNewVideoFrame, start.
  destruct s as [r [] q m w fw]; simpl; case_decide; done.
Qed.

(** After a call of [process] the queue holds up to [m_queueMaxSize + 1]
    frames: the check runs before the push and lets [m_queueMaxSize]
    frames stay. *)
Lemma process_queue_keeps s f :
  0 < m_queueMaxSize s →
  m_videoFramesQueue (process s f) =
  drop (length (m_videoFramesQueue s ++ [f]) - S (Z.to_nat (m_queueMaxSize s)))
       (m_videoFramesQueue s ++ [f]).
Proof.
  intros Hmax. rewrite process_queue, decide_True by done.
  rewrite checkQueueSizeConstraint_drop by lia.
  rewrite length_app. simpl length.
  replace (length (m_videoFramesQueue s) + 1 - S (Z.to_nat (m_queueMaxSize s)))%nat
    with (length (m_videoFramesQueue s) - Z.to_nat (m_queueMaxSize s))%nat by lia.
  rewrite drop_app_le by lia. done.
Qed.

Lemma process_all_snoc s fs f :
  process_all s (fs ++ [f]) = process (process_all s fs) f.
Proof. unfold process_all. by rewrite foldl_app. Qed.

Lemma process_all_maxSize s fs : m_queueMaxSize (process_all s fs) = m_queueMaxSize s.
Proof.
  induction fs as [|f fs IH] using rev_ind; [done|].
  rewrite process_all_snoc. by rewrite (proj1 (process_fields _ _)).
Qed.

(** Frames pushed one after the other into an empty queue, the worker not
    moving: the queue ends with the [m_queueMaxSize + 1] newest. *)
Lemma queue_after_pushes s fs :
  0 < m_queueMaxSize s → m_videoFramesQueue s = [] →
  m_videoFramesQueue (process_all s fs) =
  drop (length fs - S (Z.to_nat (m_queueMaxSize s))) fs.
Proof.
  intros Hmax Hempty. induction fs as [|f fs IH] using rev_ind.
  - simpl. by rewrite Hempty.
  - rewrite process_all_snoc, process_queue_keeps by (by rewrite process_all_maxSize).
    rewrite process_all_maxSize, IH.
    set (n := S (Z.to_nat (m_queueMaxSize s))).
    rewrite !length_app, length_drop. simpl length.
    destruct (decide (length fs ≤ n)%nat).
    + replace (length fs - n)%nat with 0%nat by lia. rewrite drop_0.
      f_equal. lia.
    + replace (length fs - (length fs - n) + 1 - n)%nat with 1%nat by lia.
      rewrite drop_app_le by (rewrite length_drop; lia).
      rewrite drop_drop.
      replace (length fs + 1 - n)%nat with (length fs - n + 1)%nat by lia.
      rewrite drop_app_le by lia. done.
Qed.

(** The worker at the test of its inner loop, running: it forwards the
    whole queue, front first, and goes back to wait. *)
Lemma drain_forwards_queue q : ∀ fw m,
  run_worker (2 * length q + 1) (mkQueue true true q m AtDrain fw)
  = mkQueue true true [] m AtWait (fw ++ q).
Proof.
  induction q as [|f q IH]; intros fw m.
  - simpl. by rewrite app_nil_r.
  - replace (2 * length (f :: q) + 1)%nat with (S (S (2 * length q + 1))) by (simpl; lia).
    cbn [run_worker]. unfold worker_step at 1. cbn [worker m_videoFramesQueue].
    unfold worker_step at 1. cbn [worker m_runningState].
    cbn [m_startedState m_videoFramesQueue m_queueMaxSize forwarded].
    rewrite IH. by rewrite <- app_assoc.
Qed.

(** The worker waiting on an empty queue cannot move. *)
Lemma worker_blocked s :
  worker s = AtWait → m_videoFramesQueue s = [] → ∀ fuel, run_worker fuel s = s.
Proof.
  intros Hw Hq [|fuel]; [done|]. simpl. unfold worker_step. rewrite Hw.
  unfold waitPredicate. rewrite Hq. done.
Qed.

Lemma queue_eta s :
  s = mkQueue (m_runningState s) (m_startedState s) (m_videoFramesQueue s)
        (m_queueMaxSize s) (worker s) (forwarded s).
Proof. by destruct s. Qed.

Lemma process_all_fields maxSize f fs :
  m_runningState (process_all (construct maxSize) (f :: fs)) = true ∧
  m_startedState (process_all (construct maxSize) (f :: fs)) = true ∧
  worker (process_all (construct maxSize) (f :: fs)) = AtWait ∧
  forwarded (process_all (construct maxSize) (f :: fs)) = [].
Proof.
  induction fs as [|f' fs IH] using rev_ind.
  - simpl. unfold process, pushNewVideoFrame. simpl. by case_decide.
  - rewrite app_comm_cons, process_all_snoc.
    destruct IH as (Hr & Hs & Hw & Hf).
    destruct (process_fields (process_all (construct maxSize) (f :: fs)) f')
      as (_ & -> & -> & -> & ->).
    by rewrite Hr, Hs, Hw, Hf.
Qed.

(** More frames than [m_queueMaxSize] pushed before the worker moves: the
    worker then forwards the [m_queueMaxSize + 1] newest, oldest first, and
    waits. *)
Lemma forwarded_after_burst maxSize fs :
  0 < maxSize → (Z.to_nat maxSize < length fs)%nat →
  run_worker (2 * Z.to_nat maxSize + 4) (process_all (construct maxSize) fs)
  = mkQueue true true [] maxSize AtWait (drop (length fs - S (Z.to_nat maxSize)) fs).
Proof.
  intros Hmax Hlen. destruct fs as [|f fs]; [simpl in Hlen; lia|].
  destruct (process_all_fields maxSize f fs) as (Hr & Hs & Hw & Hf).
  pose proof (queue_after_pushes (construct maxSize) (f :: fs) Hmax eq_refl) as Hq.
  pose proof (process_all_maxSize (construct maxSize) (f :: fs)) as Hm.
  cbn [construct m_queueMaxSize] in Hq, Hm.
  rewrite (queue_eta (process_all _ _)), Hr, Hs, Hw, Hf, Hm, Hq.
  set (q := drop _ _).
  assert (Hql : length q = S (Z.to_nat maxSize)).
  { unfold q. rewrite length_drop. lia. }
  replace (2 * Z.to_nat maxSize + 4)%nat with (S (2 * length q + 1)) by lia.
  cbn [run_worker]. unfold worker_step at 1. cbn [worker].
  unfold waitPredicate. cbn [m_videoFramesQueue].
  rewrite bool_decide_eq_true_2 by lia.
  cbn [m_runningState m_startedState m_videoFramesQueue m_queueMaxSize forwarded].
  by rewrite drain_forwards_queue.
Qed.

(** Invariant of a relay built with capacity 0. *)
Definition idleRelay s : Prop :=
  m_queueMaxSize s = 0 ∧ m_videoFramesQueue s = [] ∧ forwarded s = [] ∧
  worker s ≠ AtDrain ∧ ∀ f, worker s ≠ Popped f.

Lemma idleRelay_step s s' : idleRelay s → step s s' → idleRelay s'.
Proof.
  intros (Hm & Hq & Hf & Hd & Hp) Hstep.
  destruct Hstep as [s f Hlock|s s' Hw|s|s Hj].
  - destruct (process_fields s f) as (Hm' & _ & _ & Hf' & Hw').
    unfold idleRelay. rewrite process_queue, Hm', Hf', Hw', Hm.
    rewrite decide_False by lia.
    split_and!; try done; destruct (m_startedState s); try done.
  - unfold worker_step, waitPredicate in Hw. rewrite Hq in Hw.
    destruct (worker s) eqn:Ew; try done. by destruct (Hp f).
  - done.
  - unfold idleRelay, flush. cbn. rewrite Hq. done.
Qed.

(** C10: a relay built with capacity 0, whatever calls of [process], moves
    of its worker and steps of its destructor follow: the queue stays
    empty and no frame is pushed to the next elements. *)
Theorem capacity_zero_discards s :
  rtc step (construct 0) s → m_videoFramesQueue s = [] ∧ forwarded s = [].
Proof.
  intros Hreach.
  assert (Hinv : idleRelay s).
  { revert s Hreach. apply rtc_ind_r.
    - by split_and!.
    - intros s1 s2 _ Hstep IH. by eapply idleRelay_step. }
  destruct Hinv as (_ & Hq & Hf & _). done.
Qed.

(** C1, on the code: capacity [maxSize] of at least 1 and more frames
    than that pushed before the worker moves.  A push evicts only while the
    queue holds more than [maxSize] frames, so the queue ends with the
    [maxSize + 1] newest frames; the worker forwards these, oldest first,
    one more than the capacity, and then blocks on the empty queue. *)
Theorem relay_keeps_capacity_plus_one maxSize fs :
  0 < maxSize → (Z.to_nat maxSize < length fs)%nat →
  m_videoFramesQueue (process_all (construct maxSize) fs)
    = drop (length fs - S (Z.to_nat maxSize)) fs ∧
  length (m_videoFramesQueue (process_all (construct maxSize) fs))
    = S (Z.to_nat maxSize) ∧
  forwarded (run_worker (2 * Z.to_nat maxSize + 4) (process_all (construct maxSize) fs))
    = drop (length fs - S (Z.to_nat maxSize)) fs ∧
  worker_step (run_worker (2 * Z.to_nat maxSize + 4) (process_all (construct maxSize) fs))
    = None.
Proof.
  intros Hmax Hlen.
  pose proof (queue_after_pushes (construct maxSize) fs Hmax eq_refl) as Hq.
  cbn [construct m_queueMaxSize] in Hq.
  rewrite forwarded_after_burst by done. rewrite Hq.
  split_and!; [done| |done|done].
  rewrite length_drop. lia.
Qed.

(** C8, on the code: the worker is in [wait] with an empty queue when the
    destructor starts.  After [m_runningState = false] the predicate of the
    wait is still false, so the worker cannot move however long it is left
    to run, and [join] does not return. *)
Theorem shutdown_leaves_worker_waiting s :
  worker s = AtWait → m_videoFramesQueue s = [] →
  m_runningState (shutdown s) = false ∧
  waitPredicate (shutdown s) = false ∧
  (∀ fuel, run_worker fuel (shutdown s) = shutdown s) ∧
  joined (shutdown s) = false.
Proof.
  intros Hw Hq. split_and!.
  - done.
  - unfold waitPredicate, shutdown. cbn. by rewrite Hq.
  - by apply worker_blocked.
  - unfold joined, shutdown. cbn. by rewrite Hw.
Qed.

End RelayFacts.

Lemma capacity_zero_discards_witness :
  m_videoFramesQueue (process (process (construct 0) 7%nat) 8%nat) = [] ∧
  forwarded (process (process (construct 0) 7%nat) 8%nat) = [].
Proof.
  apply capacity_zero_discards.
  eapply rtc_l; [by apply step_process|].
  apply rtc_once. by apply step_process.
Defined.

(** C2, on the code: capacity 1 and three frames pushed before the worker
    moves.  The queue holds the second and the third; the worker forwards
    both, then blocks on the empty queue. *)
Theorem capacity_one_forwards_two (F1 F2 F3 : nat) :
  let s := process_all (construct 1) [F1; F2; F3] in
  m_videoFramesQueue s = [F2; F3] ∧
  forwarded (run_worker 6 s) = [F2; F3] ∧
  worker_step (run_worker 6 s) = None.
Proof. by vm_compute. Qed.

Lemma relay_keeps_capacity_plus_one_witness :
  m_videoFramesQueue (process_all (construct 2) [1; 2; 3; 4]%nat) = [2; 3; 4]%nat ∧
  length (m_videoFramesQueue (process_all (construct 2) [1; 2; 3; 4]%nat)) = 3%nat ∧
  forwarded (run_worker 8 (process_all (construct 2) [1; 2; 3; 4]%nat)) = [2; 3; 4]%nat ∧
  worker_step (run_worker 8 (process_all (construct 2) [1; 2; 3; 4]%nat)) = None.
Proof.
  apply (relay_keeps_capacity_plus_one 2 [1; 2; 3; 4]%nat); [lia|simpl; lia].
Defined.

Lemma shutdown_leaves_worker_waiting_witness :
  m_runningState (shutdown (run_worker 4 (process (construct 1) 1%nat))) = false ∧
  waitPredicate (shutdown (run_worker 4 (process (construct 1) 1%nat))) = false ∧
  (∀ fuel, run_worker fuel (shutdown (run_worker 4 (process (construct 1) 1%nat)))
           = shutdown (run_worker 4 (process (construct 1) 1%nat))) ∧
  joined (shutdown (run_worker 4 (process (construct 1) 1%nat))) = false.
Proof.
  apply shutdown_leaves_worker_waiting; reflexivity.
Defined.

(** The frame pushed before the destructor ran was forwarded: the worker
    is not blocked for lack of work done. *)
Example one_frame_forwarded_before_shutdown :
  forwarded (run_worker 4 (process (construct 1) 1%nat)) = [1%nat] ∧
  worker (run_worker 4 (process (construct 1) 1%nat)) = AtWait.
Proof. by vm_compute. Qed.

End RelayFacts.

(** * Properties of the video source *)

Module SourceFacts.
Import Source.

(** C3, as stated, fails: the source of [main] built with frame rate 0 is
    constructed like any other, holds 0 as its frame rate, and the first
    round of its generator reaches [1000 / m_frameRate] with 0. *)
Lemma zero_frame_rate_reaches_division :
  construct 20 25 0 = mkSource 20 25 0 false ∧
  generatorRound (start (construct 20 25 0)) = DivisionByZero.
Proof. split; reflexivity. Qed.

(** C3, amended: the constructor checks nothing.  Whatever the frame rate,
    it yields a source that holds that frame rate and is not running; once
    started, the first round of the generator computes
    [1000 / m_frameRate]: a sleep of that many milliseconds for a positive
    rate, a division by zero for the rate 0. *)
Theorem frame_rate_not_validated width height frameRate :
  m_frameRate (construct width height frameRate) = frameRate ∧
  m_runningState (construct width height frameRate) = false ∧
  generatorRound (start (construct width height frameRate)) =
    (if decide (frameRate = 0) then DivisionByZero
     else Slept (1000 `div` frameRate)).
Proof.
  split_and!; [done..|].
  unfold generatorRound, interFrameDelay. simpl. by case_decide.
Qed.

End SourceFacts.

(** * Properties of linking and pushing downstream *)

Module PipelineFacts.
Import Pipeline.

(** [process] then [processAndPushDownstream] on one element, as in the
    body of the [for_each] of [BaseElement::processAndPushDownstream]. *)
Definition visit (fuel : nat) (σ : Store) (frame element : nat) (w : World)
    : option World :=
  w1 ← process fuel σ element frame w;
  processAndPushDownstream fuel σ element frame w1.

(** Elements linked to [e] one after the other. *)
Definition linkAll (σ : Store) (e : nat) (elements : list nat) : Store :=
  foldl (λ σ element, (link σ e element).1) σ elements.

(** The events of one visit: the call of [process] with what it does, then
    the call of [processAndPushDownstream] with what it does, until it
    returns. *)
Definition visitEvents (element : nat) (t : list Event * list Event) : list Event :=
  Process element :: t.1 ++ Push element :: t.2 ++ [Pushed element].

Lemma snoc_app {A} (l : list A) x t : (l ++ [x]) ++ t = l ++ x :: t.
Proof. by rewrite <- app_assoc. Qed.

Lemma push_unfold fuel σ e frame w node :
  σ !! e = Some node → kind node ≠ KQueue →
  processAndPushDownstream (S fuel) σ e frame w =
  w' ← forEach (visit fuel σ frame) (m_nextElements node) (emit [Push e] w);
  Some (emit [Pushed e] w').
Proof.
  intros Hnode Hkind. cbn [processAndPushDownstream]. rewrite Hnode. simpl.
  by destruct (kind node).
Qed.


Lemma forEach_events (visitF : nat → World → option World) cs : ∀ w w',
  (∀ c w w', visitF c w = Some w' → ∃ t, trace w' = trace w ++ visitEvents c t) →
  forEach visitF cs w = Some w' →
  ∃ ts, length ts = length cs ∧
        trace w' = trace w ++ concat (zip_with visitEvents cs ts).
Proof.
  intros w w' Hvisit. revert w. induction cs as [|c cs IH]; intros w Hrun; simpl in Hrun.
  - injection Hrun as <-. exists []. split; [done|]. simpl. by rewrite app_nil_r.
  - destruct (visitF c w) as [w1|] eqn:Hc; [|done]. simpl in Hrun.
    destruct (Hvisit _ _ _ Hc) as [t Ht].
    destruct (IH _ Hrun) as (ts & Hlen & Hts).
    exists (t :: ts). split; [simpl; lia|].
    rewrite Hts, Ht. simpl zip_with. simpl concat. by rewrite <- app_assoc.
Qed.

Lemma calls_events fuel : ∀ σ e frame w w',
  (process fuel σ e frame w = Some w' →
     ∃ t, trace w' = trace w ++ Process e :: t) ∧
  (processAndPushDownstream fuel σ e frame w = Some w' →
     ∃ t, trace w' = trace w ++ Push e :: t ++ [Pushed e]).
Proof.
  induction fuel as [|fuel IH]; intros σ e frame w w'; [done|].
  assert (Hvisit : ∀ c w w', visit fuel σ frame c w = Some w' →
                     ∃ t, trace w' = trace w ++ visitEvents c t).
  { intros c w0 w2 Hrun. unfold visit in Hrun.
    destruct (process fuel σ c frame w0) as [w1|] eqn:Hp; [|done]. simpl in Hrun.
    destruct (proj1 (IH _ _ _ _ _) Hp) as [t1 Ht1].
    destruct (proj2 (IH _ _ _ _ _) Hrun) as [t2 Ht2].
    exists (t1, t2). unfold visitEvents. simpl.
    rewrite Ht2, Ht1. by rewrite <- app_assoc. }
  assert (Hpush : ∀ w w', processAndPushDownstream (S fuel) σ e frame w = Some w' →
                    ∃ t, trace w' = trace w ++ Push e :: t ++ [Pushed e]).
  { intros w0 w2 Hrun.
    destruct (σ !! e) as [node|] eqn:Hnode;
      [|by (cbn [processAndPushDownstream] in Hrun; rewrite Hnode in Hrun)].
    assert (kind node = KQueue ∨ kind node ≠ KQueue) as [Hq|Hq]
      by (destruct (kind node); auto).
    - cbn [processAndPushDownstream] in Hrun. rewrite Hnode in Hrun. simpl in Hrun.
      rewrite Hq in Hrun. injection Hrun as <-. exists []. simpl.
      by rewrite <- app_assoc.
    - rewrite (push_unfold _ _ _ _ _ _ Hnode Hq) in Hrun.
      destruct (forEach _ _ _) as [w1|] eqn:Heach; [|done]. simpl in Hrun.
      injection Hrun as <-.
      destruct (forEach_events _ _ _ _ Hvisit Heach) as (ts & _ & Hts).
      exists (concat (zip_with visitEvents (m_nextElements node) ts)).
      simpl. rewrite Hts. simpl. by rewrite <- !app_assoc. }
  split; [|apply Hpush].
  intros Hrun. cbn [process] in Hrun.
  destruct (σ !! e) as [node|]; [|done]. simpl in Hrun.
  destruct (kind node).
  - destruct fuel as [|fuel']; [done|].
    destruct (proj2 (IH _ _ _ _ _) Hrun) as [t Ht].
    eexists. rewrite Ht. simpl. apply snoc_app.
  - unfold displayProcess in Hrun. simpl in Hrun.
    destruct (frames w !! frame); [|done]. injection Hrun as <-.
    eexists. simpl. apply snoc_app.
  - unfold detectorProcess in Hrun. simpl in Hrun.
    destruct (frames w !! frame); [|done]. simpl in Hrun.
    destruct (Detector.checkPatternAndMarkExistingPatterns _ _); [|done].
    injection Hrun as <-. eexists. simpl. apply snoc_app.
  - unfold queueProcess in Hrun. simpl in Hrun.
    destruct (queues w !! e); [|done]. injection Hrun as <-.
    exists []. done.
Qed.

Lemma visit_events fuel σ frame c w w' :
  visit fuel σ frame c w = Some w' → ∃ t, trace w' = trace w ++ visitEvents c t.
Proof.
  intros Hc. unfold visit in Hc.
  destruct (process fuel σ c frame w) as [w1|] eqn:Hp; [|done]. simpl in Hc.
  destruct (proj1 (calls_events _ _ _ _ _ _) Hp) as [t1 Ht1].
  destruct (proj2 (calls_events _ _ _ _ _ _) Hc) as [t2 Ht2].
  exists (t1, t2). unfold visitEvents. simpl.
  rewrite Ht2, Ht1. by rewrite <- app_assoc.
Qed.

(** A source 0, a detector 1 and a display 2, not linked yet, and a world
    with one 2 x 2 frame. *)
Definition threeElements : Store :=
  {[ 0%nat := mkNode KSource [];
     1%nat := mkNode (KDetector Detector.mainPattern) [];
     2%nat := mkNode KDisplay [] ]}.

Definition oneFrame : World := mkWorld {[ 0%nat := [[1; 0]; [0; 1]] ]} ∅ [].







(** The source linked to the detector, then to the display: the detector's
    visit is over before the display is called. *)
Example source_detector_display :
  trace <$> processAndPushDownstream 3 (linkAll threeElements 0 [1; 2]%nat) 0 0 oneFrame
  = Some [Push 0;
          Process 1; Push 1; Pushed 1;
          Process 2; Printed 2 [[1; 0]; [0; 1]]; Push 2; Pushed 2;
          Pushed 0].
Proof. by vm_compute. Qed.

End PipelineFacts.

(** * Further properties of the detector *)

Module DetectorMore.
Import Detector DetectorFacts.

(** The cell at row [r], column [c], if there is one. *)
Definition cellAt (g : grid) (r c : nat) : option Z := row ← g !! r; row !! c.

(** Cell (r, c) lies in the footprint that [markPattern] gives to the found
    position [p]: the pattern's rows and columns from the position converted
    to [uint8_t]. *)
Definition inFootprint (pat : grid) (p : nat * nat) (r c : nat) : Prop :=
  (p.1 `mod` 256 ≤ r < p.1 `mod` 256 + length pat ∧
   p.2 `mod` 256 ≤ c < p.2 `mod` 256 + firstRowSize pat)%nat.

#[global] Instance inFootprint_dec pat p r c : Decision (inFootprint pat p r c).
Proof. unfold inFootprint. apply _. Defined.

(** Order in which the loops visit positions: rows first, then columns. *)
Definition scanBefore (p q : nat * nat) : Prop :=
  (p.1 < q.1 ∨ (p.1 = q.1 ∧ p.2 < q.2))%nat.

Lemma cellAt_markGridSpec g x y w h r c :
  cellAt (markGridSpec g x y w h) r c =
  (λ v, if decide ((y ≤ r < y + h)%nat ∧ (x ≤ c < x + w)%nat) then markPixel v else v)
    <$> cellAt g r c.
Proof.
  unfold cellAt. rewrite markGridSpec_lookup.
  destruct (g !! r) as [row|]; simpl; [|done].
  case_decide.
  - rewrite markRowSpec_lookup. destruct (row !! c); simpl; [|done].
    f_equal. repeat case_decide; tauto.
  - destruct (row !! c); simpl; [|done]. f_equal. case_decide; tauto.
Qed.

(** [markPattern] at a [uint8_t] position, when it returns: the grid keeps
    its rows, every cell of the footprint that holds a positive value holds
    2 afterwards, and every other cell is as before. *)
Theorem markPattern_cells pat px (x y : nat) px' :
  (x ≤ 255)%nat → (y ≤ 255)%nat →
  markPattern pat px (Z.of_nat x) (Z.of_nat y) = Some px' →
  length px' = length px ∧
  ∀ r c,
    cellAt px' r c =
    (λ v, if decide ((y ≤ r < y + length pat)%nat ∧ (x ≤ c < x + firstRowSize pat)%nat)
          then (if decide (0 < v) then 2 else v) else v) <$> cellAt px r c.
Proof.
  intros Hx Hy Hrun. apply markPattern_spec in Hrun as [_ ->]; [|done..].
  split; [apply markGridSpec_length|]. intros r c. apply cellAt_markGridSpec.
Qed.

Lemma markPattern_cells_witness :
  length [[2; 2; 1; 0]; [0; 0; 0; 0]] = length [[1; 1; 1; 0]; [0; 0; 0; 0]] ∧
  ∀ r c,
    cellAt [[2; 2; 1; 0]; [0; 0; 0; 0]] r c =
    (λ v, if decide ((0 ≤ r < 0 + length [[1; 1]]%Z)%nat ∧
                     (0 ≤ c < 0 + firstRowSize [[1; 1]]%Z)%nat)
          then (if decide (0 < v) then 2 else v) else v)
      <$> cellAt [[1; 1; 1; 0]; [0; 0; 0; 0]] r c.
Proof.
  apply (markPattern_cells [[1; 1]] [[1; 1; 1; 0]; [0; 0; 0; 0]] 0 0); [lia|lia|].
  vm_compute. reflexivity.
Defined.

(** [markPattern] with a pattern that has rows, at a row position from which
    the pattern would reach row 256 or beyond: the counter [k], a [uint8_t],
    wraps before it reaches the bound and the call has no result. *)
Theorem markPattern_wraps pat px xPosition yPosition :
  0 ≤ yPosition ≤ 255 → 256 ≤ yPosition + Z.of_nat (length pat) →
  markPattern pat px xPosition yPosition = None.
Proof. intros Hy Hb. unfold markPattern. by apply markRowsLoop_diverges. Qed.

Lemma markPattern_wraps_witness :
  markPattern [[1]; [1]] [[1]; [1]] 0 255 = None.
Proof. apply markPattern_wraps; simpl; lia. Defined.

Lemma call_marked pat px px' log :
  checkPatternAndMarkExistingPatterns pat px = Some (px', log) → marked px px'.
Proof.
  intros Hrun. rewrite check_factor in Hrun.
  destruct (tooSmall pat px) as [[]|]; simpl in Hrun; [| |done].
  - injection Hrun as <- <-. apply marked_refl.
  - destruct (allMatches pat px) as [ms|]; [|done]. simpl in Hrun.
    destruct (marks pat px ms) as [g|] eqn:Hmarks; [|done].
    injection Hrun as <- <-. by apply marks_settled in Hmarks as [? _].
Qed.

(** A call that returns leaves the frame with the same rows and row sizes;
    each cell keeps its value or goes from a positive value to 2. *)
Theorem check_only_marks pat px px' log :
  checkPatternAndMarkExistingPatterns pat px = Some (px', log) →
  Forall2 (Forall2 (λ va vb, vb = va ∨ (0 < va ∧ vb = 2))) px px'.
Proof.
  intros Hrun. pose proof (call_marked _ _ _ _ Hrun) as Hm.
  eapply Forall2_impl; [exact Hm|]. intros ra rb Hrow.
  eapply Forall2_impl; [exact Hrow|]. intros va vb [->| ->]; [by left|].
  unfold markPixel. case_decide; [right|left]; done.
Qed.

Lemma check_only_marks_witness :
  Forall2 (Forall2 (λ va vb, vb = va ∨ (0 < va ∧ vb = 2)))
    [[1; 1; 1; 0]; [0; 0; 0; 0]] [[2; 2; 2; 0]; [0; 0; 0; 0]].
Proof.
  apply (check_only_marks [[1; 1]] _ _ [(0, 0); (0, 1)]%nat).
  vm_compute. reflexivity.
Defined.

Lemma marks_cells pat ms : ∀ g g' r c,
  marks pat g ms = Some g' →
  cellAt g' r c =
  (λ v, if decide (Exists (λ p, inFootprint pat p r c) ms) then markPixel v else v)
    <$> cellAt g r c.
Proof.
  induction ms as [|[j i] ms IH]; intros g g' r c Hrun; simpl in Hrun.
  - injection Hrun as <-. destruct (cellAt g r c); simpl; done.
  - destruct (markPattern _ _ _ _) as [g1|] eqn:Hmark; [|done]. simpl in Hrun.
    rewrite !to_uint8_nat in Hmark.
    apply markPattern_spec in Hmark as [_ ->]; [|apply mod_256_le..].
    rewrite (IH _ _ r c Hrun), cellAt_markGridSpec.
    destruct (cellAt g r c) as [v|]; simpl; [|done]. f_equal.
    assert (Hone : (j `mod` 256 ≤ r < j `mod` 256 + length pat)%nat ∧
                   (i `mod` 256 ≤ c < i `mod` 256 + firstRowSize pat)%nat
                   ↔ inFootprint pat (j, i) r c) by done.
    repeat case_decide; rewrite ?markPixel_idemp; try done;
      exfalso; rewrite Exists_cons in *; tauto.
Qed.

(** The frame after a call that returns: a cell holding a positive value
    holds 2 exactly when it lies in the footprint of one of the positions
    found; every other cell is as before. *)
Theorem check_cells pat px px' log r c :
  checkPatternAndMarkExistingPatterns pat px = Some (px', log) →
  cellAt px' r c =
  (λ v, if decide (Exists (λ p, inFootprint pat p r c) log)
        then (if decide (0 < v) then 2 else v) else v) <$> cellAt px r c.
Proof.
  intros Hrun. rewrite check_factor in Hrun.
  destruct (tooSmall pat px) as [[]|]; simpl in Hrun; [| |done].
  - injection Hrun as <- <-. destruct (cellAt px r c); simpl; done.
  - destruct (allMatches pat px) as [ms|]; [|done]. simpl in Hrun.
    destruct (marks pat px ms) as [g|] eqn:Hmarks; [|done].
    injection Hrun as <- <-. by apply marks_cells.
Qed.

Lemma check_cells_witness :
  cellAt [[2; 2; 2; 0]; [0; 0; 0; 0]] 0 2 =
  (λ v, if decide (Exists (λ p, inFootprint [[1; 1]] p 0 2) [(0, 0); (0, 1)]%nat)
        then (if decide (0 < v) then 2 else v) else v)
    <$> cellAt [[1; 1; 1; 0]; [0; 0; 0; 0]] 0 2.
Proof.
  apply (check_cells [[1; 1]] [[1; 1; 1; 0]; [0; 0; 0; 0]]).
  vm_compute. reflexivity.
Defined.

Lemma colMatches_range pat pixels raw j n : ∀ i ms,
  colMatches pat pixels raw j i n = Some ms →
  Forall (λ p, p.1 = j ∧ (i ≤ p.2 < i + n)%nat) ms.
Proof.
  induction n as [|n IH]; intros i ms Hrun; simpl in Hrun.
  - injection Hrun as <-. constructor.
  - destruct (matchAt _ _ _ _ _) as [b|]; [|done]. simpl in Hrun.
    destruct (colMatches _ _ _ _ _ _) as [rest|] eqn:Hrest; [|done].
    simpl in Hrun. injection Hrun as <-.
    assert (Hr : Forall (λ p, p.1 = j ∧ (i ≤ p.2 < i + S n)%nat) rest).
    { eapply Forall_impl; [by apply IH|]. simpl. intros p [? ?]. split; [done|lia]. }
    destruct b; [|done]. constructor; [simpl; lia|done].
Qed.

Lemma colMatches_sorted pat pixels raw j n : ∀ i ms,
  colMatches pat pixels raw j i n = Some ms → StronglySorted scanBefore ms.
Proof.
  induction n as [|n IH]; intros i ms Hrun; simpl in Hrun.
  - injection Hrun as <-. constructor.
  - destruct (matchAt _ _ _ _ _) as [b|]; [|done]. simpl in Hrun.
    destruct (colMatches _ _ _ _ _ _) as [rest|] eqn:Hrest; [|done].
    simpl in Hrun. injection Hrun as <-.
    destruct b; [|by eapply IH]. constructor; [by eapply IH|].
    eapply Forall_impl; [by apply (colMatches_range _ _ _ _ _ _ _ Hrest)|].
    simpl. intros p [? ?]. right. simpl. lia.
Qed.

Lemma rowMatches_sorted pat pixels n : ∀ j ms,
  rowMatches pat pixels j n = Some ms → StronglySorted scanBefore ms.
Proof.
  induction n as [|n IH]; intros j ms Hrun; pose proof Hrun as Hall; simpl in Hrun.
  - injection Hrun as <-. constructor.
  - destruct (pixels !! j) as [raw|]; [|done]. simpl in Hrun.
    destruct (pat !! 0%nat) as [p0|]; [|done]. simpl in Hrun.
    case_decide; [done|].
    destruct (colMatches _ _ _ _ _ _) as [ms0|] eqn:Hcols; [|done]. simpl in Hrun.
    destruct (rowMatches _ _ _ _) as [rest|] eqn:Hrest; [|done]. simpl in Hrun.
    injection Hrun as <-. apply StronglySorted_app. split_and!.
    + intros [j1 i1] [j2 i2] H1 H2. left. simpl.
      pose proof (colMatches_range _ _ _ _ _ _ _ Hcols) as Hr.
      rewrite Forall_forall in Hr. destruct (Hr _ H1) as [Hj1 _]. simpl in Hj1.
      apply (rowMatches_elem _ _ _ _ _ Hrest) in H2 as [Hj2 _]. lia.
    + by eapply colMatches_sorted.
    + by eapply IH.
Qed.

(** The positions found by a call are listed in the order of the scan, top
    row first and left to right within a row, each position once. *)
Theorem found_in_scan_order pat px px' log :
  checkPatternAndMarkExistingPatterns pat px = Some (px', log) →
  StronglySorted scanBefore log.
Proof.
  intros Hrun. rewrite check_factor in Hrun.
  destruct (tooSmall pat px) as [[]|]; simpl in Hrun; [| |done].
  - injection Hrun as <- <-. constructor.
  - destruct (allMatches pat px) as [ms|] eqn:Hms; [|done]. simpl in Hrun.
    destruct (marks pat px ms) as [g|]; [|done]. injection Hrun as <- <-.
    by eapply rowMatches_sorted.
Qed.

Lemma found_in_scan_order_witness :
  StronglySorted scanBefore [(0, 0); (0, 1)]%nat.
Proof.
  apply (found_in_scan_order [[1; 1]] [[1; 1; 1; 0]; [0; 0; 0; 0]]
           [[2; 2; 2; 0]; [0; 0; 0; 0]]).
  vm_compute. reflexivity.
Defined.

(** A frame wider than a [uint8_t] can count: the match at column 256 is
    found, and [markPattern] gets the column 0, where there is nothing to
    mark. *)
Example match_at_column_256_marks_column_0 :
  checkPatternAndMarkExistingPatterns [[1; 1]]
    [replicate 256 0 ++ [1; 1; 0]; replicate 259 0]
  = Some ([replicate 256 0 ++ [1; 1; 0]; replicate 259 0], [(0, 256)]%nat).
Proof. by vm_compute. Qed.

(** A frame that keeps the invariant of [VideoFrame] (as many rows as
    [m_height], each of [m_width] cells, both at most 255), with a
    rectangular pattern that has rows: [process] returns; no access leaves
    a vector and every loop ends. *)
Theorem process_returns pat f w :
  pat ≠ [] → rectangular pat w →
  rectangular (m_pixels f) (Z.to_nat (m_width f)) →
  length (m_pixels f) = Z.to_nat (m_height f) →
  m_width f ≤ 255 → m_height f ≤ 255 →
  ∃ f' log, process pat f = Some (f', log) ∧
            m_width f' = m_width f ∧ m_height f' = m_height f ∧
            rectangular (m_pixels f') (Z.to_nat (m_width f)) ∧
            length (m_pixels f') = Z.to_nat (m_height f).
Proof.
  intros Hne Hpat Hpx Hh Hw255 Hh255.
  destruct (process_total pat f w Hne Hpat Hpx Hh Hw255 Hh255) as [[f' log] Hrun].
  exists f', log. split; [done|]. unfold process in Hrun.
  destruct (checkPatternAndMarkExistingPatterns pat (m_pixels f)) as [[px' l]|] eqn:Hc;
    [|done].
  simpl in Hrun. injection Hrun as <- <-. simpl.
  pose proof (call_marked _ _ _ _ Hc) as Hm.
  split_and!; [done|done| |].
  - unfold rectangular in *. rewrite Forall_lookup in Hpx. apply Forall_lookup.
    intros r row' Hrow'.
    destruct (Forall2_lookup_r _ _ _ _ _ Hm Hrow') as (row & Hrow & Hcells).
    rewrite <- (Hpx _ _ Hrow). symmetry. by eapply Forall2_length.
  - rewrite <- Hh. symmetry. by eapply Forall2_length.
Qed.

Lemma process_returns_witness :
  ∃ f' log,
    process mainPattern (mkVideoFrame 4 5 [[0;0;0;0]; [0;1;0;0]; [1;1;1;0]; [0;1;0;0]; [1;0;1;0]])
      = Some (f', log) ∧
    m_width f' = 4 ∧ m_height f' = 5 ∧
    rectangular (m_pixels f') (Z.to_nat 4) ∧
    length (m_pixels f') = Z.to_nat 5.
Proof.
  apply (process_returns mainPattern
           (mkVideoFrame 4 5 [[0;0;0;0]; [0;1;0;0]; [1;1;1;0]; [0;1;0;0]; [1;0;1;0]]) 3).
  - discriminate.
  - repeat constructor.
  - repeat constructor.
  - reflexivity.
  - simpl. lia.
  - simpl. lia.
Defined.

End DetectorMore.

(** * Further properties of the asynchronous queue *)

Module RelayMore.
Import Relay RelayFacts.

Section RelayMore.
Context {Frame : Type}.
Implicit Types (s : AsynchronousQueue Frame) (q fs pushed : list Frame) (f : Frame).

(** The frame the worker has popped and not yet forwarded or dropped. *)
Definition inHand s : list Frame :=
  match worker s with Popped f => [f] | _ => [] end.

(** States of the relay with the frames given to [process] so far, oldest
    first; the moves are those of [step]. *)
Inductive history : list Frame → AsynchronousQueue Frame → Prop :=
| history_construct queueMaxSize : history [] (construct queueMaxSize)
| history_process pushed s f :
    history pushed s → (0 < m_queueMaxSize s → worker s ≠ AtDrain) →
    history (pushed ++ [f]) (process s f)
| history_worker pushed s s' :
    history pushed s → worker_step s = Some s' → history pushed s'
| history_shutdown pushed s : history pushed s → history pushed (shutdown s)
| history_flush pushed s : history pushed s → joined s = true → history pushed (flush s).

(** [checkQueueSizeConstraint(maxSize)] removes entries from the front only
    and leaves the [maxSize] newest, or the whole queue when it is no longer
    than that. *)
Theorem checkQueueSizeConstraint_keeps_newest maxSize q :
  0 ≤ maxSize →
  checkQueueSizeConstraint maxSize q = drop (length q - Z.to_nat maxSize) q ∧
  length (checkQueueSizeConstraint maxSize q) = (length q `min` Z.to_nat maxSize)%nat.
Proof.
  intros Hmax. split.
  - by apply checkQueueSizeConstraint_drop.
  - by apply checkQueueSizeConstraint_length.
Qed.

Lemma flush_empties s : m_videoFramesQueue (flush s) = [].
Proof.
  unfold flush. cbn. rewrite checkQueueSizeConstraint_drop by lia.
  simpl. rewrite Nat.sub_0_r. apply drop_all.
Qed.

(** What one move of the worker can do. *)
Lemma worker_step_effect s s' :
  worker_step s = Some s' →
  m_queueMaxSize s' = m_queueMaxSize s ∧
  m_startedState s' = m_startedState s ∧
  m_runningState s' = m_runningState s ∧
  worker s ≠ NotStarted ∧
  (length (m_videoFramesQueue s') ≤ length (m_videoFramesQueue s))%nat ∧
  (forwarded s' ++ inHand s' ++ m_videoFramesQueue s')
    `sublist_of` (forwarded s ++ inHand s ++ m_videoFramesQueue s) ∧
  (m_runningState s = false → forwarded s' = forwarded s).
Proof.
  destruct s as [r st q m w fw]. unfold worker_step, inHand. cbn.
  destruct w as [| | |f|]; try done.
  - case_match; [|done]. intros [= <-]. cbn. by split_and!.
  - destruct q as [|f q]; intros [= <-]; cbn.
    + split_and!; try done. by destruct r.
    + split_and!; try done. lia.
  - destruct r; intros [= <-]; cbn.
    + split_and!; try done. by rewrite <- app_assoc.
    + split_and!; try done. apply sublist_app; [done|]. by apply sublist_cons.
Qed.

(** Invariant of the relay along any history. *)
Definition relayInv (queueMaxSize : Z) pushed s : Prop :=
  m_queueMaxSize s = queueMaxSize ∧
  (m_startedState s = false → worker s = NotStarted) ∧
  (length (m_videoFramesQueue s) ≤
     Z.to_nat queueMaxSize + (if decide (0 < queueMaxSize)%Z then 1 else 0))%nat ∧
  (forwarded s ++ inHand s ++ m_videoFramesQueue s) `sublist_of` pushed.

Lemma process_inHand s f :
  (m_startedState s = false → worker s = NotStarted) →
  inHand (process s f) = inHand s.
Proof.
  intros Hns. unfold inHand.
  destruct (process_fields s f) as (_ & _ & _ & _ & ->).
  destruct (m_startedState s); [done|]. by rewrite Hns.
Qed.

Lemma relayInv_history pushed s :
  history pushed s → 0 ≤ m_queueMaxSize s → relayInv (m_queueMaxSize s) pushed s.
Proof.
  induction 1 as [m|pushed s f _ IH Hlock|pushed s s' _ IH Hw|pushed s _ IH|pushed s _ IH Hj];
    intros Hmax.
  - cbn. split_and!; [done|done|simpl; lia|done].
  - destruct (process_fields s f) as (Hm & _ & Hst & Hfw & _).
    rewrite Hm in Hmax |- *. destruct (IH Hmax) as (_ & Hns & Hlen & Hsub).
    split_and!; [done|by rewrite Hst| |].
    + rewrite process_queue. case_decide.
      * rewrite length_app, checkQueueSizeConstraint_length by lia. simpl. lia.
      * lia.
    + rewrite Hfw, process_inHand, process_queue by done. case_decide.
      * rewrite !app_assoc. apply sublist_app; [|done].
        etrans; [|exact Hsub]. rewrite <- !app_assoc.
        do 2 (apply sublist_app; [done|]).
        rewrite checkQueueSizeConstraint_drop by lia. apply sublist_drop.
      * by apply sublist_inserts_r.
  - destruct (worker_step_effect _ _ Hw) as (Hm & Hst & _ & Hns' & Hlen' & Hsub' & _).
    rewrite Hm in Hmax |- *. destruct (IH Hmax) as (_ & Hns & Hlen & Hsub).
    split_and!; [done| |lia|by etrans].
    rewrite Hst. intros Hf. by destruct Hns'; apply Hns.
  - cbn in Hmax |- *. destruct (IH Hmax) as (_ & Hns & Hlen & Hsub).
    by split_and!.
  - cbn in Hmax |- *. destruct (IH Hmax) as (_ & Hns & Hlen & Hsub).
    split_and!; [done|done| |].
    + fold (flush s). rewrite flush_empties. simpl. lia.
    + etrans; [|exact Hsub]. unfold inHand. cbn.
      do 2 (apply sublist_app; [done|]).
      rewrite checkQueueSizeConstraint_drop by lia. apply sublist_drop.
Qed.

(** The queue never holds more than [m_queueMaxSize + 1] frames (none with
    capacity 0), whatever the order in which the caller of [process], the
    worker and the destructor move. *)
Theorem queue_bounded pushed s :
  history pushed s → 0 ≤ m_queueMaxSize s →
  (length (m_videoFramesQueue s) ≤
     Z.to_nat (m_queueMaxSize s) + (if decide (0 < m_queueMaxSize s)%Z then 1 else 0))%nat.
Proof. intros Hh Hmax. by destruct (relayInv_history _ _ Hh Hmax) as (_ & _ & ? & _). Qed.

(** The frames forwarded, then the frame in the worker's hands, then the
    queue from its front: they are frames given to [process], in the order
    they were given, none of them twice.  Frames are dropped, never
    reordered, repeated or made up. *)
Theorem forwarded_in_push_order pushed s :
  history pushed s → 0 ≤ m_queueMaxSize s →
  (forwarded s ++ inHand s ++ m_videoFramesQueue s) `sublist_of` pushed.
Proof. intros Hh Hmax. by destruct (relayInv_history _ _ Hh Hmax) as (_ & _ & _ & ?). Qed.


(** The destructor starts while the worker waits and frames are queued: the
    worker wakes, pops the front frame, drops it without forwarding it and
    ends; [join] returns and the flush empties the queue. *)
Theorem shutdown_with_queued_frames s f q :
  worker s = AtWait → m_videoFramesQueue s = f :: q →
  worker (run_worker 3 (shutdown s)) = Exited ∧
  forwarded (run_worker 3 (shutdown s)) = forwarded s ∧
  m_videoFramesQueue (run_worker 3 (shutdown s)) = q ∧
  joined (run_worker 3 (shutdown s)) = true ∧
  m_videoFramesQueue (flush (run_worker 3 (shutdown s))) = [].
Proof.
  intros Hw Hq. destruct s as [r st q0 m w fw]. cbn in Hw, Hq. subst w q0.
  split_and!; try done. apply flush_empties.
Qed.

(** A started, running worker that waits on a queue with frames, left to
    run: it forwards the whole queue, front first, and waits again on the
    empty queue. *)
Theorem worker_forwards_whole_queue s :
  worker s = AtWait → m_startedState s = true → m_runningState s = true →
  m_videoFramesQueue s ≠ [] →
  run_worker (2 * length (m_videoFramesQueue s) + 2) s
  = mkQueue true true [] (m_queueMaxSize s) AtWait (forwarded s ++ m_videoFramesQueue s).
Proof.
  intros Hw Hst Hr Hq. destruct s as [r st q m w fw].
  cbn [worker m_startedState m_runningState m_videoFramesQueue m_queueMaxSize forwarded]
    in *.
  subst r st w.
  replace (2 * length q + 2)%nat with (S (2 * length q + 1)) by lia.
  cbn [run_worker]. unfold worker_step at 1. cbn [worker].
  unfold waitPredicate. cbn [m_videoFramesQueue].
  rewrite bool_decide_eq_true_2 by (by destruct q).
  cbn [m_runningState m_startedState m_videoFramesQueue m_queueMaxSize forwarded].
  apply drain_forwards_queue.
Qed.

End RelayMore.

Lemma checkQueueSizeConstraint_keeps_newest_witness :
  checkQueueSizeConstraint 2 [1; 2; 3; 4]%nat
    = drop (length [1; 2; 3; 4]%nat - Z.to_nat 2) [1; 2; 3; 4]%nat ∧
  length (checkQueueSizeConstraint 2 [1; 2; 3; 4]%nat)
    = (length [1; 2; 3; 4]%nat `min` Z.to_nat 2)%nat.
Proof. apply checkQueueSizeConstraint_keeps_newest. lia. Defined.

(** Capacity 1: three frames given to [process], then three moves of the
    worker, which leave frame 2 in its hands. *)
Lemma history_example :
  history [1; 2; 3]%nat (run_worker 2 (process_all (construct 1) [1; 2; 3]%nat)).
Proof.
  apply (history_worker _ (run_worker 1 (process_all (construct 1) [1; 2; 3]%nat)));
    [|reflexivity].
  apply (history_worker _ (process_all (construct 1) [1; 2; 3]%nat)); [|reflexivity].
  change (history ([1; 2]%nat ++ [3%nat])
            (process (process_all (construct 1) [1; 2]%nat) 3%nat)).
  apply history_process; [|by vm_compute].
  change (history ([1%nat] ++ [2%nat]) (process (process_all (construct 1) [1%nat]) 2%nat)).
  apply history_process; [|by vm_compute].
  change (history ([] ++ [1%nat]) (process (construct 1) 1%nat)).
  apply history_process; [|by vm_compute].
  apply history_construct.
Defined.

Lemma queue_bounded_witness :
  (length (m_videoFramesQueue (run_worker 2 (process_all (construct 1) [1; 2; 3]%nat))) ≤
     Z.to_nat (m_queueMaxSize (run_worker 2 (process_all (construct 1) [1; 2; 3]%nat)))
     + (if decide (0 < m_queueMaxSize
                          (run_worker 2 (process_all (construct 1) [1; 2; 3]%nat)))%Z
        then 1 else 0))%nat.
Proof.
  apply (queue_bounded [1; 2; 3]%nat); [apply history_example|].
  vm_compute. discriminate.
Defined.

Lemma forwarded_in_push_order_witness :
  (forwarded (run_worker 2 (process_all (construct 1) [1; 2; 3]%nat))
     ++ inHand (run_worker 2 (process_all (construct 1) [1; 2; 3]%nat))
     ++ m_videoFramesQueue (run_worker 2 (process_all (construct 1) [1; 2; 3]%nat)))
    `sublist_of` [1; 2; 3]%nat.
Proof.
  apply forwarded_in_push_order; [apply history_example|].
  vm_compute. discriminate.
Defined.


Lemma shutdown_with_queued_frames_witness :
  worker (run_worker 3 (shutdown (process_all (construct 1) [1; 2]%nat))) = Exited ∧
  forwarded (run_worker 3 (shutdown (process_all (construct 1) [1; 2]%nat)))
    = forwarded (process_all (construct 1) [1; 2]%nat) ∧
  m_videoFramesQueue (run_worker 3 (shutdown (process_all (construct 1) [1; 2]%nat)))
    = [2%nat] ∧
  joined (run_worker 3 (shutdown (process_all (construct 1) [1; 2]%nat))) = true ∧
  m_videoFramesQueue
    (flush (run_worker 3 (shutdown (process_all (construct 1) [1; 2]%nat)))) = [].
Proof.
  apply (shutdown_with_queued_frames _ 1%nat [2%nat]); reflexivity.
Defined.

Lemma worker_forwards_whole_queue_witness :
  run_worker (2 * length (m_videoFramesQueue (process_all (construct 1) [1; 2; 3]%nat)) + 2)
    (process_all (construct 1) [1; 2; 3]%nat)
  = mkQueue true true [] (m_queueMaxSize (process_all (construct 1) [1; 2; 3]%nat)) AtWait
      (forwarded (process_all (construct 1) [1; 2; 3]%nat)
         ++ m_videoFramesQueue (process_all (construct 1) [1; 2; 3]%nat)).
Proof.
  apply worker_forwards_whole_queue; [reflexivity|reflexivity|reflexivity|].
  vm_compute. discriminate.
Defined.

End RelayMore.

(** * Properties of frame generation *)

Module GeneratorFacts.
Import Generator.

Lemma lineLoop_closed draw n : ∀ k line,
  lineLoop draw k n line = line ++ ((λ t, Z.b2z (draw t)) <$> seq k n).
Proof.
  induction n as [|n IH]; intros k line; simpl.
  - by rewrite app_nil_r.
  - rewrite IH. by rewrite <- app_assoc.
Qed.

Lemma rowsLoop_closed draw width n : ∀ k pixels,
  rowsLoop draw width k n pixels =
  pixels ++ ((λ r, (λ t, Z.b2z (draw t)) <$> seq (k + r * width) width) <$> seq 0 n).
Proof.
  induction n as [|n IH]; intros k pixels; simpl.
  - by rewrite app_nil_r.
  - rewrite IH, lineLoop_closed, <- app_assoc. simpl. f_equal.
    rewrite Nat.add_0_r. f_equal.
    rewrite <- fmap_S_seq, <- list_fmap_compose.
    apply list_fmap_ext. intros _ r _. simpl. f_equal. f_equal. lia.
Qed.

(** The frame made by [GenerateVideoFrame] carries the size of the source,
    has [m_height] rows of [m_width] cells, and its cell in row [r], column
    [c] is the draw number [r * m_width + c]: 0 or 1, rows filled one after
    the other from consecutive draws. *)
Theorem generated_frame s draw :
  m_width (GenerateVideoFrame s draw) = Source.m_width s ∧
  m_height (GenerateVideoFrame s draw) = Source.m_height s ∧
  length (m_pixels (GenerateVideoFrame s draw)) = Z.to_nat (Source.m_height s) ∧
  (∀ r row, m_pixels (GenerateVideoFrame s draw) !! r = Some row →
     length row = Z.to_nat (Source.m_width s)) ∧
  (∀ r c, (r < Z.to_nat (Source.m_height s))%nat → (c < Z.to_nat (Source.m_width s))%nat →
     DetectorMore.cellAt (m_pixels (GenerateVideoFrame s draw)) r c
     = Some (Z.b2z (draw (r * Z.to_nat (Source.m_width s) + c)%nat))).
Proof.
  unfold GenerateVideoFrame. simpl. rewrite rowsLoop_closed. simpl.
  split_and!; [done|done| | |].
  - by rewrite length_fmap, length_seq.
  - intros r row Hrow. rewrite list_lookup_fmap in Hrow.
    destruct (seq 0 _ !! r); simpl in Hrow; [|done]. injection Hrow as <-.
    by rewrite length_fmap, length_seq.
  - intros r c Hr Hc. unfold DetectorMore.cellAt.
    rewrite list_lookup_fmap, lookup_seq_lt by done. simpl.
    rewrite list_lookup_fmap, lookup_seq_lt by done. simpl. done.
Qed.

Lemma generated_shape s draw :
  DetectorFacts.rectangular (m_pixels (GenerateVideoFrame s draw))
    (Z.to_nat (Source.m_width s)) ∧
  length (m_pixels (GenerateVideoFrame s draw)) = Z.to_nat (Source.m_height s).
Proof.
  unfold GenerateVideoFrame. simpl. rewrite rowsLoop_closed. simpl. split.
  - apply Forall_lookup. intros r row Hrow. rewrite list_lookup_fmap in Hrow.
    destruct (seq 0 _ !! r); simpl in Hrow; [|done]. injection Hrow as <-.
    by rewrite length_fmap, length_seq.
  - by rewrite length_fmap, length_seq.
Qed.

(** Every frame made by a source is one the detector can handle: with a
    rectangular pattern that has rows, [DetectorElement::process] returns
    on it, whatever the draws. *)
Theorem detector_returns_on_generated_frame s draw pat w :
  pat ≠ [] → DetectorFacts.rectangular pat w →
  Source.m_width s ≤ 255 → Source.m_height s ≤ 255 →
  is_Some (Detector.process pat (GenerateVideoFrame s draw)).
Proof.
  intros Hne Hpat Hw Hh.
  destruct (generated_shape s draw) as [Hrect Hlen].
  by apply (DetectorFacts.process_total pat _ w).
Qed.

Lemma detector_returns_on_generated_frame_witness :
  is_Some (Detector.process Detector.mainPattern
             (GenerateVideoFrame (Source.construct 20 25 1) (λ k, Nat.even k))).
Proof.
  apply (detector_returns_on_generated_frame _ _ _ 3).
  - discriminate.
  - repeat constructor.
  - simpl. lia.
  - simpl. lia.
Defined.

(** A source with a frame rate from 1 to 255 sleeps between two frames for
    [1000 / m_frameRate] milliseconds rounded down: at least 3 and at most
    1000. *)
Theorem inter_frame_delay_bounds s :
  1 ≤ Source.m_frameRate s ≤ 255 →
  ∃ ms, Source.interFrameDelay s = Some ms ∧ 3 ≤ ms ≤ 1000 ∧
        ms * Source.m_frameRate s ≤ 1000 < (ms + 1) * Source.m_frameRate s.
Proof.
  intros Hfr. unfold Source.interFrameDelay. rewrite decide_False by lia.
  eexists. split; [done|].
  pose proof (Z.div_mod 1000 (Source.m_frameRate s) ltac:(lia)) as Hdm.
  pose proof (Z.mod_pos_bound 1000 (Source.m_frameRate s) ltac:(lia)) as Hmod.
  set (d := 1000 `div` Source.m_frameRate s) in *.
  set (m := 1000 `mod` Source.m_frameRate s) in *.
  split; nia.
Qed.

Lemma inter_frame_delay_bounds_witness :
  ∃ ms, Source.interFrameDelay (Source.construct 20 25 7) = Some ms ∧ 3 ≤ ms ≤ 1000 ∧
        ms * Source.m_frameRate (Source.construct 20 25 7) ≤ 1000
          < (ms + 1) * Source.m_frameRate (Source.construct 20 25 7).
Proof. apply inter_frame_delay_bounds. simpl. lia. Defined.

End GeneratorFacts.

(** * Properties of the display *)

Module DisplayFacts.
Import Display.

(** What the display tells apart: marked (2), active (1), anything else. *)
Definition pixelClass (pixel : Z) : Z :=
  if decide (pixel = 2) then 2 else if decide (pixel = 1) then 1 else 0.

Lemma printPixel_class pixel : printPixel (pixelClass pixel) = printPixel pixel.
Proof. unfold printPixel, pixelClass. repeat case_decide; done. Qed.

Lemma printPixel_cases pixel :
  (pixelClass pixel = 2 ∧ printPixel pixel = "$ ") ∨
  (pixelClass pixel = 1 ∧ printPixel pixel = "+ ") ∨
  (pixelClass pixel = 0 ∧ printPixel pixel = ". ").
Proof. unfold printPixel, pixelClass. repeat case_decide; auto. Qed.

(** The grid as the display sees it. *)
Definition pixelClasses (pixels : grid) : grid :=
  (λ raw : list Z, pixelClass <$> raw) <$> pixels.

Lemma printRow_cons v raw : printRow (v :: raw) = printPixel v +:+ printRow raw.
Proof. done. Qed.

Lemma printPixels_cons raw pixels :
  printPixels (raw :: pixels) = printRow raw +:+ printPixels pixels.
Proof. done. Qed.

Lemma printRow_class raw : printRow (pixelClass <$> raw) = printRow raw.
Proof.
  induction raw as [|v raw IH]; [done|].
  by rewrite fmap_cons, !printRow_cons, IH, printPixel_class.
Qed.

Lemma printPixels_class (pixels : grid) :
  printPixels (pixelClasses pixels) = printPixels pixels.
Proof.
  induction pixels as [|raw pixels IH]; [done|].
  unfold pixelClasses in *. by rewrite fmap_cons, !printPixels_cons, IH, printRow_class.
Qed.

Lemma printRow_split r1 : ∀ r2 s1 s2,
  printRow r1 +:+ s1 = printRow r2 +:+ s2 →
  pixelClass <$> r1 = pixelClass <$> r2 ∧ s1 = s2.
Proof.
  induction r1 as [|v1 r1 IH]; intros [|v2 r2] s1 s2 Heq.
  - split; [done|]. unfold printRow, newline in Heq. simpl in Heq. by injection Heq.
  - exfalso. rewrite printRow_cons in Heq.
    destruct (printPixel_cases v2) as [[_ P]|[[_ P]|[_ P]]];
      rewrite P in Heq; unfold printRow at 1, newline in Heq; simpl in Heq; done.
  - exfalso. rewrite printRow_cons in Heq.
    destruct (printPixel_cases v1) as [[_ P]|[[_ P]|[_ P]]];
      rewrite P in Heq; unfold printRow at 2, newline in Heq; simpl in Heq; done.
  - rewrite !printRow_cons in Heq.
    destruct (printPixel_cases v1) as [[C1 P1]|[[C1 P1]|[C1 P1]]];
      destruct (printPixel_cases v2) as [[C2 P2]|[[C2 P2]|[C2 P2]]];
      rewrite P1, P2 in Heq; simpl in Heq; try done;
      injection Heq as Heq; destruct (IH _ _ _ Heq) as [Hr ->];
      (split; [|done]); by rewrite !fmap_cons, C1, C2, Hr.
Qed.

Lemma printRow_not_empty raw out : printRow raw +:+ out ≠ EmptyString.
Proof.
  destruct raw as [|v raw]; [done|]. rewrite printRow_cons.
  destruct (printPixel_cases v) as [[_ ->]|[[_ ->]|[_ ->]]]; simpl; done.
Qed.

(** What [printVideoFrame] writes for the pixels determines them up to what
    the display tells apart: two grids give the same text exactly when they
    have the same rows and agree cell by cell, every value other than 1 and
    2 counting as background. *)
Theorem printPixels_same_text (px1 px2 : grid) :
  printPixels px1 = printPixels px2 ↔ pixelClasses px1 = pixelClasses px2.
Proof.
  split.
  - revert px2. induction px1 as [|r1 px1 IH]; intros [|r2 px2] Heq.
    + done.
    + exfalso. symmetry in Heq. by apply printRow_not_empty in Heq.
    + exfalso. by apply printRow_not_empty in Heq.
    + rewrite !printPixels_cons in Heq.
      apply printRow_split in Heq as [Hr Hrest].
      unfold pixelClasses in *. by rewrite !fmap_cons, Hr, (IH _ Hrest).
  - intros Heq. by rewrite <- (printPixels_class px1), Heq, printPixels_class.
Qed.

(** A grid of [m_height] rows of [m_width] cells is written as [m_height]
    lines of two characters per cell and an end of line. *)
Theorem printPixels_length pixels width :
  DetectorFacts.rectangular pixels width →
  String.length (printPixels pixels) = (length pixels * (2 * width + 1))%nat.
Proof.
  assert (Happ : ∀ a b, String.length (a +:+ b) = (String.length a + String.length b)%nat).
  { intros a b. induction a as [|ch a IH]; simpl; [done|]. by rewrite IH. }
  assert (Hrow : ∀ raw, String.length (printRow raw) = (2 * length raw + 1)%nat).
  { induction raw as [|v raw IH]; [done|]. rewrite printRow_cons, Happ, IH.
    destruct (printPixel_cases v) as [[_ ->]|[[_ ->]|[_ ->]]]; simpl; lia. }
  induction 1 as [|raw pixels Hlen _ IH]; [done|].
  rewrite printPixels_cons, Happ, Hrow, IH, Hlen. simpl. lia.
Qed.

Lemma printPixels_length_witness :
  String.length (printPixels [[0; 1; 2]; [2; 1; 0]]) = (length [[0; 1; 2]; [2; 1; 0]]%Z * (2 * 3 + 1))%nat.
Proof. apply printPixels_length. repeat constructor. Defined.

End DisplayFacts.

(** * Further properties of linking and pushing downstream *)

Module PipelineMore.
Import Pipeline PipelineFacts.

(** [e'] gets the frame from [e] on the calling thread: through a chain of
    next elements none of which, before [e'], is an asynchronous queue. *)
Inductive syncReach (σ : Store) : nat → nat → Prop :=
| syncReach_next e node element :
    σ !! e = Some node → kind node ≠ KQueue → element ∈ m_nextElements node →
    syncReach σ e element
| syncReach_trans e element e' :
    syncReach σ e element → syncReach σ element e' → syncReach σ e e'.

(** The pushed frame may have been marked; every other frame is as it was. *)
Definition sameButMarked (frame : nat) (w w' : World) : Prop :=
  (∀ other, other ≠ frame → frames w' !! other = frames w !! other) ∧
  option_Forall2 DetectorFacts.marked (frames w !! frame) (frames w' !! frame).

Lemma forEach_None (visitF : nat → World → option World) cs element :
  element ∈ cs → (∀ w, visitF element w = None) → ∀ w, forEach visitF cs w = None.
Proof.
  intros Hin Hnone. induction cs as [|c cs IH]; intros w; [by apply elem_of_nil in Hin|].
  simpl. apply elem_of_cons in Hin as [<-|Hin].
  - by rewrite Hnone.
  - destruct (visitF c w); simpl; [by apply IH|done].
Qed.

(** Elements with the default [processAndPushDownstream] that can each hand
    the frame to another of them form a cycle: a push into any of them nests
    calls without end and never returns. *)
Theorem push_on_cycle_never_returns σ (cycle : nat → Prop) fuel e frame w :
  (∀ e, cycle e → ∃ node element,
     σ !! e = Some node ∧ kind node ≠ KQueue ∧
     element ∈ m_nextElements node ∧ cycle element) →
  cycle e →
  processAndPushDownstream fuel σ e frame w = None.
Proof.
  intros Hcycle. revert e w. induction fuel as [|fuel IH]; intros e w He; [done|].
  destruct (Hcycle e He) as (node & element & Hnode & Hkind & Hin & Hnext).
  rewrite (push_unfold _ _ _ _ _ _ Hnode Hkind).
  rewrite (forEach_None _ _ element Hin); [done|].
  intros w0. unfold visit. destruct (process fuel σ element frame w0); simpl; [|done].
  by apply IH.
Qed.

Lemma push_on_cycle_never_returns_witness :
  processAndPushDownstream 1000 (linkAll {[ 5%nat := mkNode KDisplay [] ]} 5 [5%nat]) 5 0
    (mkWorld {[ 0%nat := [[1]] ]} ∅ []) = None.
Proof.
  apply (push_on_cycle_never_returns _ (λ e, e = 5%nat)); [|done].
  intros e ->. exists (mkNode KDisplay [5%nat]), 5%nat.
  split_and!; [by vm_compute|discriminate|by apply elem_of_cons; left|done].
Defined.


Lemma forEach_rel (R : World → World → Prop) (visitF : nat → World → option World) cs :
  (∀ w, R w w) → (∀ a b c, R a b → R b c → R a c) →
  (∀ c w w', c ∈ cs → visitF c w = Some w' → R w w') →
  ∀ w w', forEach visitF cs w = Some w' → R w w'.
Proof.
  intros Hrefl Htrans. induction cs as [|c cs IH]; intros Hvisit w w' Hrun; simpl in Hrun.
  - injection Hrun as <-. apply Hrefl.
  - destruct (visitF c w) as [w1|] eqn:Hc; [|done]. simpl in Hrun.
    eapply Htrans; [eapply Hvisit; [by left|done]|].
    eapply IH; [|done]. intros c' w0 w0' Hin. apply Hvisit. by right.
Qed.

Lemma sameButMarked_refl frame w : sameButMarked frame w w.
Proof.
  split; [done|]. destruct (frames w !! frame); constructor.
  apply DetectorFacts.marked_refl.
Qed.

Lemma sameButMarked_trans frame a b c :
  sameButMarked frame a b → sameButMarked frame b c → sameButMarked frame a c.
Proof.
  intros [H1 H2] [H3 H4]. split.
  - intros other Hne. by rewrite H3, H1.
  - destruct H2 as [pa pb Hab|]; inversion H4 as [? pc Hbc|]; subst; constructor.
    by eapply DetectorFacts.marked_trans.
Qed.

Lemma calls_sameButMarked fuel : ∀ σ e frame w w',
  (process fuel σ e frame w = Some w' → sameButMarked frame w w') ∧
  (processAndPushDownstream fuel σ e frame w = Some w' → sameButMarked frame w w').
Proof.
  induction fuel as [|fuel IH]; intros σ e frame w w'; [done|].
  assert (Hpush : ∀ w w', processAndPushDownstream (S fuel) σ e frame w = Some w' →
                    sameButMarked frame w w').
  { intros w0 w2 Hrun.
    destruct (σ !! e) as [node|] eqn:Hnode;
      [|by (cbn [processAndPushDownstream] in Hrun; rewrite Hnode in Hrun)].
    assert (kind node = KQueue ∨ kind node ≠ KQueue) as [Hq|Hq]
      by (destruct (kind node); auto).
    - cbn [processAndPushDownstream] in Hrun. rewrite Hnode in Hrun. simpl in Hrun.
      rewrite Hq in Hrun. injection Hrun as <-. exact (sameButMarked_refl frame w0).
    - rewrite (push_unfold _ _ _ _ _ _ Hnode Hq) in Hrun.
      destruct (forEach _ _ _) as [w1|] eqn:Hf; [|done]. simpl in Hrun.
      injection Hrun as <-.
      apply (forEach_rel (sameButMarked frame)) in Hf;
        [exact Hf|apply sameButMarked_refl|apply sameButMarked_trans|].
      intros c wa wb _ Hc. unfold visit in Hc.
      destruct (process fuel σ c frame wa) as [wc|] eqn:Hp; [|done]. simpl in Hc.
      eapply sameButMarked_trans; [by apply (proj1 (IH σ c frame wa wc))|].
      by apply (proj2 (IH σ c frame wc wb)). }
  split; [|apply Hpush].
  intros Hrun. cbn [process] in Hrun.
  destruct (σ !! e) as [node|]; [|done]. simpl in Hrun.
  destruct (kind node).
  - destruct fuel as [|fuel']; [done|].
    exact (proj2 (IH σ e frame (emit [Process e] w) w') Hrun).
  - unfold displayProcess in Hrun. simpl in Hrun.
    destruct (frames w !! frame); [|done]. injection Hrun as <-.
    exact (sameButMarked_refl frame w).
  - unfold detectorProcess in Hrun. simpl in Hrun.
    destruct (frames w !! frame) as [px|] eqn:Hpx; [|done]. simpl in Hrun.
    destruct (Detector.checkPatternAndMarkExistingPatterns _ _) as [r|] eqn:Hc; [|done].
    injection Hrun as <-. split; simpl.
    + intros other Hne. by rewrite lookup_insert_ne.
    + rewrite Hpx, lookup_insert_eq. constructor.
      destruct r as [px' log]. by eapply DetectorMore.call_marked.
  - unfold queueProcess in Hrun. simpl in Hrun.
    destruct (queues w !! e); [|done]. injection Hrun as <-.
    exact (sameButMarked_refl frame w).
Qed.

(** A push through any graph, when it returns, has changed no frame but the
    pushed one, and that one only as detectors do: same rows and row sizes,
    each cell as before or gone from a positive value to 2. *)
Theorem push_marks_only_pushed_frame fuel σ e frame w w' :
  processAndPushDownstream fuel σ e frame w = Some w' →
  (∀ other, other ≠ frame → frames w' !! other = frames w !! other) ∧
  option_Forall2 (Forall2 (Forall2 (λ va vb, vb = va ∨ (0 < va ∧ vb = 2))))
    (frames w !! frame) (frames w' !! frame).
Proof.
  intros Hrun. destruct (proj2 (calls_sameButMarked fuel σ e frame w w') Hrun) as [H1 H2].
  split; [done|]. destruct H2 as [px px' Hm|]; constructor.
  eapply Forall2_impl; [exact Hm|]. intros ra rb Hrow.
  eapply Forall2_impl; [exact Hrow|]. intros va vb [->| ->]; [by left|].
  unfold Detector.markPixel. case_decide; [right|left]; done.
Qed.

(** The events a call adds, with the elements whose [process] they show all
    taken from [allowed]. *)
Definition addsProcessOf (allowed : nat → Prop) (w w' : World) : Prop :=
  ∃ t, trace w' = trace w ++ t ∧ ∀ e', Process e' ∈ t → allowed e'.

Lemma addsProcessOf_refl allowed w : addsProcessOf allowed w w.
Proof.
  exists []. split; [by rewrite app_nil_r|]. intros e' Hin. by apply elem_of_nil in Hin.
Qed.

Lemma addsProcessOf_trans allowed a b c :
  addsProcessOf allowed a b → addsProcessOf allowed b c → addsProcessOf allowed a c.
Proof.
  intros (t1 & H1 & A1) (t2 & H2 & A2). exists (t1 ++ t2). split.
  - by rewrite H2, H1, <- app_assoc.
  - intros e' [?|?]%elem_of_app; auto.
Qed.

Lemma addsProcessOf_impl (P Q : nat → Prop) w w' :
  (∀ e, P e → Q e) → addsProcessOf P w w' → addsProcessOf Q w w'.
Proof. intros HPQ (t & Ht & A). exists t. split; [done|]. auto. Qed.

Lemma addsProcessOf_emit allowed ev w w' :
  (∀ e', Process e' ∈ ev → allowed e') →
  addsProcessOf allowed (emit ev w) w' → addsProcessOf allowed w w'.
Proof.
  intros Hev (t & Ht & A). exists (ev ++ t). split.
  - rewrite Ht. simpl. by rewrite <- app_assoc.
  - intros e' [?|?]%elem_of_app; auto.
Qed.

Lemma calls_synchronous fuel : ∀ σ e frame w w',
  (process fuel σ e frame w = Some w' →
     addsProcessOf (λ e', e' = e ∨ syncReach σ e e') w w') ∧
  (processAndPushDownstream fuel σ e frame w = Some w' →
     addsProcessOf (syncReach σ e) w w').
Proof.
  induction fuel as [|fuel IH]; intros σ e frame w w'; [done|].
  assert (Hpush : ∀ w w', processAndPushDownstream (S fuel) σ e frame w = Some w' →
                    addsProcessOf (syncReach σ e) w w').
  { intros w0 w2 Hrun.
    destruct (σ !! e) as [node|] eqn:Hnode;
      [|by (cbn [processAndPushDownstream] in Hrun; rewrite Hnode in Hrun)].
    assert (kind node = KQueue ∨ kind node ≠ KQueue) as [Hq|Hq]
      by (destruct (kind node); auto).
    - cbn [processAndPushDownstream] in Hrun. rewrite Hnode in Hrun. simpl in Hrun.
      rewrite Hq in Hrun. injection Hrun as <-.
      exists [Push e; Pushed e]. split; [simpl; by rewrite <- app_assoc|].
      intros e' Hin. repeat (apply elem_of_cons in Hin as [?|Hin]; [done|]).
      by apply elem_of_nil in Hin.
    - rewrite (push_unfold _ _ _ _ _ _ Hnode Hq) in Hrun.
      destruct (forEach _ _ _) as [w1|] eqn:Hf; [|done]. simpl in Hrun.
      injection Hrun as <-.
      apply (forEach_rel (addsProcessOf (syncReach σ e))) in Hf;
        [|apply addsProcessOf_refl|apply addsProcessOf_trans|].
      + apply (addsProcessOf_emit _ [Push e]).
        { intros e' Hin. apply elem_of_cons in Hin as [?|Hin]; [done|].
          by apply elem_of_nil in Hin. }
        eapply addsProcessOf_trans; [exact Hf|].
        exists [Pushed e]. split; [done|].
        intros e' Hin. apply elem_of_cons in Hin as [?|Hin]; [done|].
        by apply elem_of_nil in Hin.
      + intros c wa wb Hin Hc. unfold visit in Hc.
        assert (Hec : syncReach σ e c) by (by eapply syncReach_next).
        destruct (process fuel σ c frame wa) as [wc|] eqn:Hp; [|done]. simpl in Hc.
        eapply addsProcessOf_trans.
        * eapply addsProcessOf_impl; [|by apply (proj1 (IH σ c frame wa wc))].
          intros e' [->|?]; [done|]. by eapply syncReach_trans.
        * eapply addsProcessOf_impl; [|by apply (proj2 (IH σ c frame wc wb))].
          intros e' ?. by eapply syncReach_trans. }
  split; [|apply Hpush].
  intros Hrun. cbn [process] in Hrun.
  destruct (σ !! e) as [node|]; [|done]. simpl in Hrun.
  apply (addsProcessOf_emit _ [Process e]).
  { intros e' Hin. apply elem_of_cons in Hin as [[= ->]|Hin]; [by left|].
    by apply elem_of_nil in Hin. }
  destruct (kind node).
  - destruct fuel as [|fuel']; [done|].
    eapply addsProcessOf_impl;
      [|by apply (proj2 (IH σ e frame (emit [Process e] w) w'))].
    intros e' ?. by right.
  - unfold displayProcess in Hrun. simpl in Hrun.
    destruct (frames w !! frame) as [px|]; [|done]. injection Hrun as <-.
    exists [Printed e px]. split; [done|].
    intros e' Hin. apply elem_of_cons in Hin as [?|Hin]; [done|].
    by apply elem_of_nil in Hin.
  - unfold detectorProcess in Hrun. simpl in Hrun.
    destruct (frames w !! frame) as [px|]; [|done]. simpl in Hrun.
    destruct (Detector.checkPatternAndMarkExistingPatterns _ _) as [r|]; [|done].
    injection Hrun as <-. eexists. split; [done|].
    intros e' Hin. apply list_elem_of_In, in_map_iff in Hin as (p & Hp & _). done.
  - unfold queueProcess in Hrun. simpl in Hrun.
    destruct (queues w !! e); [|done]. injection Hrun as <-.
    exists []. split; [simpl; by rewrite app_nil_r|].
    intros e' Hin. by apply elem_of_nil in Hin.
Qed.

(** A push, when it returns, has called [process] only on elements that get
    the frame on the calling thread: no element that is reached only through
    an asynchronous queue is processed by the push. *)
Theorem push_processes_synchronous_only fuel σ e frame w w' :
  processAndPushDownstream fuel σ e frame w = Some w' →
  ∃ t, trace w' = trace w ++ t ∧ ∀ e', Process e' ∈ t → syncReach σ e e'.
Proof. intros Hrun. by apply (proj2 (calls_synchronous fuel σ e frame w w')). Qed.


(** The world [main] starts from, with one small frame: the queue 1 built
    with capacity 1, nothing pushed yet. *)
Definition mainWorld : World :=
  mkWorld {[ 0%nat := [[1; 0]; [0; 1]] ]} {[ 1%nat := Relay.construct 1 ]} [].

Lemma push_marks_only_pushed_frame_witness :
  (∀ other, other ≠ 0%nat →
     frames (default mainWorld (processAndPushDownstream 5 mainStore 0 0 mainWorld)) !! other
     = frames mainWorld !! other) ∧
  option_Forall2 (Forall2 (Forall2 (λ va vb, vb = va ∨ (0 < va ∧ vb = 2))))
    (frames mainWorld !! 0%nat)
    (frames (default mainWorld (processAndPushDownstream 5 mainStore 0 0 mainWorld)) !! 0%nat).
Proof.
  apply (push_marks_only_pushed_frame 5 mainStore 0).
  vm_compute. reflexivity.
Defined.

Lemma push_processes_synchronous_only_witness :
  ∃ t, trace (default mainWorld (processAndPushDownstream 5 mainStore 0 0 mainWorld))
       = trace mainWorld ++ t ∧
       ∀ e', Process e' ∈ t → syncReach mainStore 0 e'.
Proof.
  apply (push_processes_synchronous_only 5 mainStore 0 0).
  vm_compute. reflexivity.
Defined.

(** In the pipeline of [main] the detector, which sits behind the queue, is
    not reached from the source on the calling thread. *)
Example main_detector_is_asynchronous : ¬ syncReach mainStore 0 2.
Proof.
  assert (Hall : ∀ e e', syncReach mainStore e e' →
                   (e = 0 ∧ (e' = 1 ∨ e' = 3))%nat).
  { induction 1 as [e node c Hnode Hkind Hin|e c e' _ IH1 _ IH2].
    - apply elem_of_map_to_list in Hnode.
      remember (map_to_list mainStore) as l eqn:Hl. vm_compute in Hl. subst l.
      repeat (apply elem_of_cons in Hnode as [[= -> ->]|Hnode];
              [simpl in Hin, Hkind; try done;
               try (by apply elem_of_nil in Hin);
               repeat (apply elem_of_cons in Hin as [->|Hin]; [by auto|]);
               by apply elem_of_nil in Hin|]).
      by apply elem_of_nil in Hnode.
    - destruct IH1 as [-> [-> | ->]]; by destruct IH2. }
  intros H. destruct (Hall _ _ H) as [_ [?|?]]; done.
Qed.

(** Source, then detector, then display, as in the build with the detector
    in line: one push marks the frame and the display prints it marked,
    after the positions found. *)
Theorem detector_then_display σ src det disp pat frame w px px' log :
  σ !! src = Some (mkNode KSource [det]) →
  σ !! det = Some (mkNode (KDetector pat) [disp]) →
  σ !! disp = Some (mkNode KDisplay []) →
  frames w !! frame = Some px →
  Detector.checkPatternAndMarkExistingPatterns pat px = Some (px', log) →
  processAndPushDownstream 4 σ src frame w =
  Some (mkWorld (<[frame := px']> (frames w)) (queues w)
          (trace w ++ [Push src; Process det] ++ map (λ p, Found det p.1 p.2) log
             ++ [Push det; Process disp; Printed disp px'; Push disp; Pushed disp;
                 Pushed det; Pushed src])).
Proof.
  intros Hsrc Hdet Hdisp Hpx Hcheck.
  rewrite (push_unfold _ _ _ _ _ _ Hsrc) by (simpl; discriminate).
  cbn [m_nextElements forEach]. unfold visit at 1.
  cbn [process]. rewrite Hdet. cbn [mbind option_bind kind].
  unfold detectorProcess. cbn [frames emit]. rewrite Hpx. cbn [mbind option_bind].
  rewrite Hcheck. cbn [mbind option_bind fst snd].
  rewrite (push_unfold _ _ _ _ _ _ Hdet) by (simpl; discriminate).
  cbn [m_nextElements forEach]. unfold visit at 1.
  cbn [process]. rewrite Hdisp. cbn [mbind option_bind kind].
  unfold displayProcess. cbn [frames emit]. rewrite lookup_insert_eq.
  cbn [mbind option_bind].
  rewrite (push_unfold _ _ _ _ _ _ Hdisp) by (simpl; discriminate).
  cbn [m_nextElements forEach mbind option_bind].
  unfold emit. cbn [frames queues trace].
  f_equal. f_equal. rewrite <- !app_assoc. done.
Qed.


(** The build with the detector in line:
    [videoSourceElement->link(detectorElement)->link(displayElement)],
    source 0, detector 1, display 2. *)
Definition chainStore : Store :=
  let σ : Store :=
    {[ 0%nat := mkNode KSource [];
       1%nat := mkNode (KDetector Detector.mainPattern) [];
       2%nat := mkNode KDisplay [] ]} in
  let '(σ, detectorElement) := link σ 0 1 in
  let '(σ, _) := link σ detectorElement 2 in
  σ.

(** A frame that carries the pattern of [main] at row 0, column 0. *)
Definition patternFrame : grid :=
  [[0; 1; 0; 0]; [1; 1; 1; 0]; [0; 1; 0; 0]; [1; 0; 1; 0]; [0; 0; 0; 0]].

Definition patternFrameMarked : grid :=
  [[0; 2; 0; 0]; [2; 2; 2; 0]; [0; 2; 0; 0]; [2; 0; 2; 0]; [0; 0; 0; 0]].

Definition patternWorld : World := mkWorld {[ 0%nat := patternFrame ]} ∅ [].

Lemma detector_then_display_witness :
  processAndPushDownstream 4 chainStore 0 0 patternWorld =
  Some (mkWorld (<[0%nat := patternFrameMarked]> (frames patternWorld))
          (queues patternWorld)
          (trace patternWorld ++ [Push 0; Process 1]
             ++ map (λ p, Found 1 p.1 p.2) [(0, 0)]%nat
             ++ [Push 1; Process 2; Printed 2 patternFrameMarked; Push 2; Pushed 2;
                 Pushed 1; Pushed 0])).
Proof.
  apply (detector_then_display chainStore 0 1 2 Detector.mainPattern 0
           patternWorld patternFrame patternFrameMarked [(0, 0)]%nat).
  - vm_compute. reflexivity.
  - vm_compute. reflexivity.
  - vm_compute. reflexivity.
  - vm_compute. reflexivity.
  - vm_compute. reflexivity.
Defined.

End PipelineMore.
